(** * A shallow embedding of the paper-list pipeline

    The repository keeps a JSON list of arXiv papers and runs four
    scripts over it:

    - [scripts/arxiv_manager_min.py] harvests the papers of a fixed list of
      queries, removes repeated urls, sorts and merges with the saved list;
    - [scripts/classify_papers.py] asks a model for a boolean label;
    - [scripts/tag_papers.py] asks a model for sub-topic tags;
    - [scripts/shuffle_papers.py] sorts the filtered list by date.

    Conventions of the embedding.

    - A record (a Python [dict] read from JSON) is the Rocq record [paper];
      the two annotation keys are optional.
    - Text is [string]: a Python [str] is its UTF-8 encoding, one
      character of [string] for each byte (a [str] with a lone
      surrogate has no encoding and is left out).  [str.strip] removes
      the white space of [str.isspace], inside and outside the ASCII
      range.
      [str.lower] is modelled on the letters [A] to [Z]; the vocabulary
      and the letter the classifier looks for are in the ASCII range.
      The order on [string] is the lexicographic order of the bytes,
      which on UTF-8 is the order of the code points Python uses for
      [str].
    - A Python [set] of urls is a [gset string]; the files on disk are a
      [gmap] from paths to contents.
    - File effects are explicit: a script yields the list of primitive file
      operations it performs, and [run_ops] replays them on a file system.
      An interrupted run is a strict prefix of that list.
    - The search client and the model are outside the repository; they
      appear as the data they hand over (results, result streams,
      replies). *)

From Stdlib Require Import String Ascii List Bool Arith Lia Sorted Permutation.
From stdpp Require Import gmap strings list fin_maps.

Local Open Scope string_scope.
Local Open Scope list_scope.

(** ** Records *)

(** The key [abstract] of the source is spelled [abstract_] here. *)
Record paper := mkPaper {
  title : string;
  url : string;
  abstract_ : string;
  published : string;
  ai_for_hw : option bool;
  tags : option (list string)
}.

Definition set_ai_for_hw (item : paper) (label : bool) : paper :=
  {| title := title item; url := url item; abstract_ := abstract_ item;
     published := published item; ai_for_hw := Some label;
     tags := tags item |}.

Definition set_tags (item : paper) (found_tags : list string) : paper :=
  {| title := title item; url := url item; abstract_ := abstract_ item;
     published := published item; ai_for_hw := ai_for_hw item;
     tags := Some found_tags |}.

(** What an exception-raising computation hands back. *)
Inductive exn := OpenAIError | RuntimeError | OtherException | JSONDecodeError | IOError.

Inductive result (A : Type) :=
| Ok (a : A)
| Raise (e : exn).
Arguments Ok {A} a.
Arguments Raise {A} e.

(** ** Files

    [json.dump] writes the text of a list in pieces, [json.load] reads a
    text back or raises.  Both belong to Python's library; the scripts
    are embedded over any such pair. *)
Class Json := {
  json_dump : list paper → list string;
  json_load : string → option (list paper)
}.

Inductive fs_op :=
| OpenW (path : string)                  (* open(path, "w") *)
| WriteChunk (path : string) (chunk : string)
| Rename (src dst : string)              (* os.rename(src, dst) *)
| Remove (path : string).                (* os.remove(path) *)

Definition fs_step (fs : gmap string string) (op : fs_op) : gmap string string :=
  match op with
  | OpenW path => <[path := ""]> fs
  | WriteChunk path chunk => alter (λ text, text +:+ chunk) path fs
  | Rename src dst =>
      match fs !! src with
      | Some text => <[dst := text]> (delete src fs)
      | None => fs
      end
  | Remove path => delete path fs
  end.

Definition run_ops (ops : list fs_op) (fs : gmap string string) : gmap string string :=
  foldl fs_step fs ops.

(** The same, with one operation that may raise: [fault = Some k] makes
    the operation number [k] fail, without effect.  The boolean tells
    whether an exception left the block. *)
Fixpoint run_faulty (ops : list fs_op) (fault : option nat)
  (fs : gmap string string) : gmap string string * bool :=
  match ops with
  | [] => (fs, false)
  | op :: ops' =>
      match fault with
      | Some 0 => (fs, true)
      | Some (S k) => run_faulty ops' (Some k) (fs_step fs op)
      | None => run_faulty ops' None (fs_step fs op)
      end
  end.

(** ** [list.sort(key=lambda x: x["published"], reverse=True)]

    Python's sort is stable, also under [reverse=True]: records with the
    same key keep their relative order.  The embedding is a stable
    insertion sort; [sort_published_sorted], [sort_published_perm] and
    [sort_published_stable] below pin its result down independently of
    the algorithm. *)

Definition published_ge (a b : paper) : bool :=
  String.leb (published b) (published a).

Fixpoint insert_desc (x : paper) (l : list paper) : list paper :=
  match l with
  | [] => [x]
  | y :: l' => if published_ge x y then x :: y :: l' else y :: insert_desc x l'
  end.

Definition sort_published (l : list paper) : list paper :=
  foldr insert_desc [] l.

(** ** The harvester, [arxiv_manager_min.py] *)

Module Harvest.

(** One iteration of the inner loop of [main] (lines 174-178). *)
Definition accumulate_item (st : list paper * gset string) (item : paper)
  : list paper * gset string :=
  let '(new_items, seen_urls) := st in
  if decide (url item ∈ seen_urls) then st
  else (new_items ++ [item], {[url item]} ∪ seen_urls).

(** A query is given by the records [fetch_papers] yields for it: the
    generator swallows every error of the client and then simply stops, so
    the caller only ever sees a finite stream. *)
Definition accumulate_query (st : list paper * gset string) (stream : list paper)
  : list paper * gset string :=
  foldl accumulate_item st stream.

Definition accumulate (streams : list (list paper)) : list paper * gset string :=
  foldl accumulate_query ([], ∅) streams.

(** [new_items] after line 182. *)
Definition harvested (streams : list (list paper)) : list paper :=
  sort_published (accumulate streams).1.

(** Lines 195-204: the new records first, the old ones after them. *)
Definition merge_item (existing_urls : gset string) (st : list paper * nat)
  (item : paper) : list paper * nat :=
  let '(merged, add_count) := st in
  if decide (url item ∈ existing_urls) then st
  else (merged ++ [item], S add_count).

Definition merge (new_items existing_data : list paper)
  (existing_urls : gset string) : list paper * nat :=
  let '(merged, add_count) := foldl (merge_item existing_urls) ([], 0) new_items in
  (merged ++ existing_data, add_count).

Definition urls_of (data : list paper) : gset string :=
  list_to_set (map url data).

(** [--mode] takes one of the two values [0] and [1]. *)
Inductive mode := Mode0 | Mode1.

Section WithJson.
Context {J : Json}.

(** [save_json]: the final path is opened for writing, which empties it,
    and the text is written into it. *)
Definition save_json (path : string) (data : list paper) : list fs_op :=
  OpenW path :: map (WriteChunk path) (json_dump data).

(** [load_existing]: a missing file is an empty list. *)
Definition load_existing (fs : gmap string string) (path : string)
  : result (list paper * gset string) :=
  match fs !! path with
  | None => Ok ([], ∅)
  | Some text =>
      match json_load text with
      | Some data => Ok (data, urls_of data)
      | None => Raise JSONDecodeError
      end
  end.

(** [main], from the first query to the last write.  The result is the
    list of file operations performed and how the run ended. *)
Definition main (m : mode) (output : string) (streams : list (list paper))
  (fs : gmap string string) : list fs_op * result unit :=
  let new_items := harvested streams in
  match m with
  | Mode0 => (save_json output new_items, Ok tt)
  | Mode1 =>
      match load_existing fs output with
      | Raise e => ([], Raise e)
      | Ok (existing_data, existing_urls) =>
          let '(merged, add_count) := merge new_items existing_data existing_urls in
          if Nat.eqb add_count 0 then ([], Ok tt)
          else (save_json output merged, Ok tt)
      end
  end.

End WithJson.

End Harvest.

(** ** Python's [str] methods used by the annotators *)

Definition lower_char (c : ascii) : ascii :=
  let n := nat_of_ascii c in
  if (65 <=? n)%nat && (n <=? 90)%nat then ascii_of_nat (n + 32) else c.

(** [s.lower()] on the letters [A] to [Z]; the bytes of a code point
    outside the ASCII range stay as they are.  Python gives such a code
    point a lower case outside the ASCII range too, but for U+0130 and
    U+212A, whose lower case has an [i] (before a combining dot) and a
    [k]: no entry of the vocabulary has a [k] or ends with [i], and the
    classifier looks for a [t]. *)
Fixpoint lower (s : string) : string :=
  match s with
  | EmptyString => EmptyString
  | String c s' => String (lower_char c) (lower s')
  end.

(** The code points [c] for which [chr(c).isspace()] holds. *)
Definition WHITESPACE : list N :=
  [ 0x09; 0x0A; 0x0B; 0x0C; 0x0D; 0x1C; 0x1D; 0x1E; 0x1F; 0x20;
    0x85; 0xA0; 0x1680;
    0x2000; 0x2001; 0x2002; 0x2003; 0x2004; 0x2005; 0x2006; 0x2007;
    0x2008; 0x2009; 0x200A; 0x2028; 0x2029; 0x202F; 0x205F; 0x3000 ]%N.

(** The UTF-8 encoding of a code point. *)
Definition utf8 (c : N) : string :=
  let lead (n : N) := ascii_of_N n in
  let cont (n : N) := ascii_of_N (0x80 + n mod 0x40)%N in
  if (c <? 0x80)%N then String (lead c) ""
  else if (c <? 0x800)%N then
    String (lead (0xC0 + c / 0x40)%N) (String (cont c) "")
  else if (c <? 0x10000)%N then
    String (lead (0xE0 + c / 0x1000)%N)
      (String (cont (c / 0x40)%N) (String (cont c) ""))
  else
    String (lead (0xF0 + c / 0x40000)%N)
      (String (cont (c / 0x1000)%N)
         (String (cont (c / 0x40)%N) (String (cont c) ""))).

(** [ch.isspace()] for a text [ch] of one code point. *)
Definition isspace (ch : string) : bool :=
  existsb (String.eqb ch) (map utf8 WHITESPACE).

(** [s.lstrip()]: a code point of white space takes one, two or three
    bytes. *)
Fixpoint lstrip (s : string) : string :=
  match s with
  | EmptyString => EmptyString
  | String a s1 =>
      if isspace (String a "") then lstrip s1
      else
        match s1 with
        | EmptyString => s
        | String b s2 =>
            if isspace (String a (String b "")) then lstrip s2
            else
              match s2 with
              | EmptyString => s
              | String c s3 =>
                  if isspace (String a (String b (String c ""))) then lstrip s3
                  else s
              end
        end
  end.

(** [s.rstrip()]: once the text after [c] is stripped, [c] goes too when
    it is, with what is left after it, one code point of white space. *)
Fixpoint rstrip (s : string) : string :=
  match s with
  | EmptyString => EmptyString
  | String c s' =>
      let r := rstrip s' in
      if isspace (String c r) then EmptyString else String c r
  end.

(** [s.strip()] *)
Definition strip (s : string) : string := rstrip (lstrip s).

(** [s.startswith(prefix)] *)
Fixpoint startswith (s prefix : string) {struct prefix} : bool :=
  match prefix, s with
  | EmptyString, _ => true
  | String _ _, EmptyString => false
  | String p prefix', String c s' => Ascii.eqb c p && startswith s' prefix'
  end.

(** [needle in haystack] *)
Fixpoint contains (needle haystack : string) : bool :=
  startswith haystack needle ||
  match haystack with
  | EmptyString => false
  | String _ haystack' => contains needle haystack'
  end.

(** [s.split(',')] *)
Fixpoint split_comma (s : string) : list string :=
  match s with
  | EmptyString => [EmptyString]
  | String c s' =>
      if Ascii.eqb c "," then EmptyString :: split_comma s'
      else match split_comma s' with
           | piece :: pieces => String c piece :: pieces
           | [] => [String c EmptyString]
           end
  end.

(** [s.endswith(suffix)] *)
Fixpoint endswith (s suffix : string) : bool :=
  String.eqb s suffix ||
  match s with
  | EmptyString => false
  | String _ s' => endswith s' suffix
  end.

(** [s.replace(old, new)] for a non-empty [old]: the occurrences are
    taken from the left and do not overlap.  [skip] counts the characters
    of an occurrence that are still to be passed over. *)
Fixpoint replace_from (old new s : string) (skip : nat) : string :=
  match s with
  | EmptyString => EmptyString
  | String c s' =>
      match skip with
      | S skip' => replace_from old new s' skip'
      | 0 =>
          if startswith s old
          then new +:+ replace_from old new s' (String.length old - 1)
          else String c (replace_from old new s' 0)
      end
  end.

Definition replace (s old new : string) : string := replace_from old new s 0.

(** ** The model service

    One call of [client.chat.completions.create] followed by reading
    [response.choices[0].message.content]: it yields a text, raises
    [OpenAIError], or raises something else (no content in the reply,
    for one). *)
Inductive reply :=
| Answer (content : string)
| ApiError
| Broken.

(** What the scripts print. *)
Inductive event :=
| Retrying (wait : nat)            (* "OpenAI API error ...; retrying in {wait}s" *)
| Skipped (item_title : string)    (* "... failed for '{title}', skipping" *)
| Progress (processed_count total : nat).

Definition MAX_RETRY : nat := 3.
Definition RETRY_BACKOFF_SEC : nat := 5.

(** The loop [for attempt in range(1, MAX_RETRY + 1)] of [query_model];
    [post] is what the script does to the content before returning it.
    [call attempt] is the outcome of the call made at that attempt. *)
Fixpoint query_attempts (post : string → string) (call : nat → reply)
  (attempts : list nat) : result string * list event :=
  match attempts with
  | [] => (Raise RuntimeError, [])
  | attempt :: rest =>
      match call attempt with
      | Answer content => (Ok (post content), [])
      | Broken => (Raise OtherException, [])
      | ApiError =>
          if Nat.eqb attempt MAX_RETRY then (Raise OpenAIError, [])
          else
            let wait := RETRY_BACKOFF_SEC * attempt in
            let '(r, log) := query_attempts post call rest in
            (r, Retrying wait :: log)
      end
  end.

(** ** [fetch_papers] of [arxiv_manager_min.py]

    What the client hands over for one paper, and the date it carries. *)
Record datetime := mkDatetime {
  year : nat; month : nat; day : nat;
  hour : nat; minute : nat; second : nat
}.

Record arxiv_result := mkResult {
  result_title : string;
  entry_id : string;
  summary : string;
  result_published : datetime
}.

Module Fetch.

Definition digit (n : nat) : ascii := ascii_of_nat (48 + n mod 10).

(** A number on two and on four decimal digits, as [%m], [%d], [%H],
    [%M], [%S] and, for the years from 1000 on, [%Y] print it. *)
Definition two_digits (n : nat) : string :=
  String (digit (n / 10)) (String (digit n) EmptyString).

Definition four_digits (n : nat) : string :=
  String (digit (n / 1000)) (String (digit (n / 100))
    (String (digit (n / 10)) (String (digit n) EmptyString))).

(** [.strftime("%Y-%m-%dT%H:%M:%SZ")]; [replace(tzinfo=...)] before it
    leaves the six fields as they are. *)
Definition strftime (d : datetime) : string :=
  four_digits (year d) +:+ "-" +:+ two_digits (month d) +:+ "-"
  +:+ two_digits (day d) +:+ "T" +:+ two_digits (hour d) +:+ ":"
  +:+ two_digits (minute d) +:+ ":" +:+ two_digits (second d) +:+ "Z".

Definition newline : string := String (ascii_of_nat 10) EmptyString.

(** The dictionary of lines 108-114. *)
Definition to_item (result : arxiv_result) : paper :=
  {| title := strip (result_title result);
     url := entry_id result;
     abstract_ := replace (strip (summary result)) newline " ";
     published := strftime (result_published result);
     ai_for_hw := None;
     tags := None |}.

(** How the iteration over [client.results(search)] ends: at the end of
    the results, on [UnexpectedEmptyPageError], or on another exception.
    Both exceptions are caught inside the generator. *)
Inductive ending := Exhausted | EmptyPage | ClientError.

(** What the generator prints, with the count at that moment. *)
Inductive message :=
| Fetching
| FetchedSoFar (count : nat)
| Finished (count : nat)
| NoResults
| HitEmptyPage (count : nat)
| ErrorSkipped.

(** The body of the [for] loop, from the count so far. *)
Fixpoint fetch_loop (count : nat) (results : list arxiv_result)
  : list paper * list message * nat :=
  match results with
  | [] => ([], [], count)
  | result :: results' =>
      let first := if Nat.eqb count 0 then [Fetching] else [] in
      let count := S count in
      let tick := if Nat.ltb 0 count && Nat.eqb (count mod 100) 0
                  then [FetchedSoFar count] else [] in
      let '(items, messages, final) := fetch_loop count results' in
      (to_item result :: items, first ++ tick ++ messages, final)
  end.

(** [fetch_papers]: the records yielded and the lines printed, for the
    results the client delivers before the iteration ends with [e]. *)
Definition fetch_papers (results : list arxiv_result) (e : ending)
  : list paper * list message :=
  let '(items, messages, count) := fetch_loop 0 results in
  (items,
   messages ++
   match e with
   | Exhausted => if Nat.ltb 0 count then [Finished count] else [NoResults]
   | EmptyPage => [HitEmptyPage count]
   | ClientError => [ErrorSkipped]
   end).

End Fetch.

(** ** The classifier, [classify_papers.py] *)

Module Classify.

Definition query_model (call : nat → reply) : result string * list event :=
  query_attempts (λ content, lower (strip content)) call (seq 1 MAX_RETRY).

(** [classify_item]; the mutated record is returned next to the label. *)
Definition classify_item (call : nat → reply) (item : paper) (overwrite : bool)
  : result (paper * bool) * list event :=
  match negb overwrite, ai_for_hw item with
  | true, Some label => (Ok (item, label), [])
  | _, _ =>
      match query_model call with
      | (Raise e, log) => (Raise e, log)
      | (Ok result, log) =>
          let label := startswith result "t" in
          (Ok (set_ai_for_hw item label, label), log)
      end
  end.

(** The records live in a store and the lists of [main] hold references
    into it, as [final_data] and [items_to_process] share their records
    with [data]. *)
Record state := mkState {
  objs : list paper;
  processed_count : nat;
  log : list event
}.

Definition tick (total_to_process : nat) (st : state) (evs : list event) : state :=
  let n := S (processed_count st) in
  {| objs := objs st;
     processed_count := n;
     log := log st ++ evs ++
            (if Nat.eqb (n mod 10) 0 || Nat.eqb n total_to_process
             then [Progress n total_to_process] else []) |}.

(** [process_wrapper]: [try] / [except Exception] / [finally].  A
    reference outside the store raises in the [try] like any other
    failure. *)
Definition process_wrapper (overwrite : bool) (total_to_process : nat)
  (call : nat → reply) (st : state) (r : nat) : result state :=
  match objs st !! r with
  | None => Ok (tick total_to_process st [Skipped "N/A"])
  | Some item =>
      match classify_item call item overwrite with
      | (Ok (item', _), evs) =>
          Ok (tick total_to_process
                {| objs := <[r := item']> (objs st);
                   processed_count := processed_count st;
                   log := log st |} evs)
      | (Raise _, evs) =>
          Ok (tick total_to_process st (evs ++ [Skipped (title item)]))
      end
  end.

(** [list(executor.map(process_wrapper, items_to_process))].  A worker
    touches its own record and, under the lock, the counter; the workers
    are run here one after the other in the order of submission.  The
    call number [i] of the batch is answered by [oracle i].  An exception
    leaving a worker would leave [list(...)] as well. *)
Fixpoint executor_map (overwrite : bool) (total_to_process : nat)
  (oracle : nat → nat → reply) (i : nat) (items : list nat) (st : state)
  : result state :=
  match items with
  | [] => Ok st
  | r :: items' =>
      match process_wrapper overwrite total_to_process (oracle i) st r with
      | Ok st' => executor_map overwrite total_to_process oracle (S i) items' st'
      | Raise e => Raise e
      end
  end.

(** The references of the records of [data] that satisfy [keep]; the
    first record of [data] sits at [base] in the store. *)
Fixpoint select (keep : paper → bool) (base : nat) (data : list paper) : list nat :=
  match data with
  | [] => []
  | item :: data' =>
      if keep item then base :: select keep (S base) data'
      else select keep (S base) data'
  end.

(** [{item.get("url") for item in labeled_data if item.get("url")}]: the
    empty url is dropped. *)
Definition nonempty_urls (data : list paper) : gset string :=
  list_to_set (List.filter (λ u, negb (String.eqb u "")) (map url data)).

(** [main] from the diff logic (line 210) on.  [labeled_data] is [Some]
    when the file of [--diff-against] exists.  The records of [data] are
    loaded first, those of [labeled_data] after them. *)
Definition store (data : list paper) (labeled_data : option (list paper))
  : list paper :=
  match labeled_data with
  | Some labeled => data ++ labeled
  | None => data
  end.

Definition items_to_process (data : list paper)
  (labeled_data : option (list paper)) (overwrite : bool) : list nat :=
  match labeled_data with
  | Some labeled =>
      let labeled_urls := nonempty_urls labeled in
      select (λ item, bool_decide (url item ∉ labeled_urls)) 0 data
  | None =>
      select (λ item, overwrite || bool_decide (ai_for_hw item = None)) 0 data
  end.

(** [final_data] as the two branches set it: [labeled_data] in the first,
    [data] itself in the second. *)
Definition final_data_refs (data : list paper)
  (labeled_data : option (list paper)) : list nat :=
  match labeled_data with
  | Some labeled => seq (length data) (length labeled)
  | None => seq 0 (length data)
  end.

Definition initial (data : list paper) (labeled_data : option (list paper))
  : state :=
  {| objs := store data labeled_data; processed_count := 0; log := [] |}.

(** The batch, and [final_data.extend(items_to_process)] after it.  The
    result holds the store and the references that make up [final_data]
    at the final saving step. *)
Definition annotate (data : list paper) (labeled_data : option (list paper))
  (overwrite : bool) (oracle : nat → nat → reply) : result (state * list nat) :=
  let items := items_to_process data labeled_data overwrite in
  let final_data := final_data_refs data labeled_data in
  match items with
  | [] => Ok (initial data labeled_data, final_data)
  | _ =>
      match executor_map overwrite (length items) oracle 0 items
              (initial data labeled_data) with
      | Raise e => Raise e
      | Ok st => Ok (st, final_data ++ items)
      end
  end.

(** The records a list of references denotes. *)
Definition contents (st : state) (refs : list nat) : list paper :=
  omap (λ r, objs st !! r) refs.

Definition is_positive (item : paper) : bool :=
  match ai_for_hw item with Some true => true | _ => false end.

(** The two collections [main] saves: [final_data] and, when it has a
    positive record, [filtered_data]. *)
Definition final_data (data : list paper) (labeled_data : option (list paper))
  (overwrite : bool) (oracle : nat → nat → reply) : result (list paper) :=
  match annotate data labeled_data overwrite oracle with
  | Ok (st, refs) => Ok (contents st refs)
  | Raise e => Raise e
  end.

Definition filtered_data (final : list paper) : list paper :=
  List.filter is_positive final.

Section WithJson.
Context {J : Json}.

(** The block under [try] in [safe_json_write]. *)
Definition safe_json_write_body (data_to_write : list paper) (path : string)
  : list fs_op :=
  let temp_path := path +:+ ".tmp" in
  OpenW temp_path :: map (WriteChunk temp_path) (json_dump data_to_write)
    ++ [Rename temp_path path].

(** [safe_json_write], with the handler: the temporary file is removed
    when it exists and the exception is raised again. *)
Definition safe_json_write (data_to_write : list paper) (path : string)
  (fault : option nat) (fs : gmap string string)
  : gmap string string * result unit :=
  let temp_path := path +:+ ".tmp" in
  match run_faulty (safe_json_write_body data_to_write path) fault fs with
  | (fs', false) => (fs', Ok tt)
  | (fs', true) =>
      (match fs' !! temp_path with
       | Some _ => fs_step fs' (Remove temp_path)
       | None => fs'
       end, Raise IOError)
  end.

(** Lines 244-245: the list of the papers to classify is written for
    inspection, straight into its file. *)
Definition save_unlabeled (path : string) (items : list paper) : list fs_op :=
  OpenW path :: map (WriteChunk path) (json_dump items).

(** The final saving step, lines 271-291.  The result is the file system
    and the exit status of the script: [1] when the main file could not
    be written, [0] otherwise.  [fault] and [fault_filtered] say which
    operation of each save raises, if any. *)
Definition save_results (final_data : list paper)
  (output_path filtered_output_path : string)
  (fault fault_filtered : option nat) (fs : gmap string string)
  : gmap string string * nat :=
  let positive := length (List.filter is_positive final_data) in
  match safe_json_write final_data output_path fault fs with
  | (fs', Raise _) => (fs', 1)
  | (fs', Ok _) =>
      if Nat.ltb 0 positive then
        ((safe_json_write (filtered_data final_data) filtered_output_path
            fault_filtered fs').1, 0)
      else (fs', 0)
  end.

End WithJson.

Definition DEFAULT_OUTPUT_SUFFIX : string := "_labeled.json".

(** Lines 171-173: the output path when [--output] is not given. *)
Definition default_output_path (input : string) : string :=
  if endswith input DEFAULT_OUTPUT_SUFFIX then input
  else replace input ".json" DEFAULT_OUTPUT_SUFFIX.

(** A member of the JSON object of the key file: a string, or a value
    of another kind (null, a number, a boolean, a list, an object), of
    which only the truth value plays a part. *)
Inductive key_value :=
| KeyString (s : string)
| KeyOther (truth : bool).

(** What the key file is: absent; a JSON object; a text that is not
    JSON; or something that makes the reading raise (a file that cannot
    be opened or decoded, JSON that is not an object), which the script
    reports and survives. *)
Inductive key_file :=
| NoKeyFile
| KeyJson (key_data : gmap string key_value)
| KeyText (text : string)
| KeyUnreadable.

(** The truth value of [os.getenv(...)]. *)
Definition truthy (v : option string) : bool :=
  match v with
  | Some s => negb (String.eqb s "")
  | None => false
  end.

(** The truth value of [key_data.get(...)]. *)
Definition truthy_value (v : option key_value) : bool :=
  match v with
  | Some (KeyString s) => negb (String.eqb s "")
  | Some (KeyOther truth) => truth
  | None => false
  end.

(** Python's [a or b]. *)
Definition or_else (a b : option key_value) : option key_value :=
  if truthy_value a then a else b.

Definition NUL : string := String (ascii_of_nat 0) EmptyString.

(** [os.environ["OPENAI_API_KEY"] = api_key_val]: the variable after the
    assignment, or [None] when the assignment raises, which it does for
    a value that is not a string (TypeError) and for a string with a NUL
    character (ValueError). *)
Definition putenv (api_key_val : option key_value) : option string :=
  match api_key_val with
  | Some (KeyString s) => if contains NUL s then None else Some s
  | Some (KeyOther _) | None => None
  end.

(** Lines 183-205: the value of [OPENAI_API_KEY] the client is built
    with, or [None] when the script exits with status 1.  An exception
    of the assignment is caught at line 200 with the ones of the
    reading, and leaves the environment as it was. *)
Definition resolve_api_key (env : option string) (kf : key_file) : option string :=
  let env' :=
    if truthy env then env
    else
      let api_key_val :=
        match kf with
        | KeyJson key_data =>
            or_else
              (or_else (key_data !! "OPENAI_API_KEY") (key_data !! "api_key"))
              (key_data !! "key")
        | KeyText text => Some (KeyString (strip text))
        | NoKeyFile | KeyUnreadable => None
        end in
      if truthy_value api_key_val then
        match putenv api_key_val with
        | Some key => Some key
        | None => env
        end
      else env in
  if truthy env' then env' else None.

End Classify.

(** ** The tagger, [tag_papers.py] *)

Module Tag.

Definition VALID_TAGS : list string :=
  [ "Verification";
    "Synthesis";
    "P&R";
    "Analog Design";
    "System-level Optimization";
    "Code Generation";
    "Security";
    "Testing";
    "Other" ].

Definition query_model (call : nat → reply) : result string * list event :=
  query_attempts strip call (seq 1 MAX_RETRY).

(** The test of line 146, without the membership in [found_tags]. *)
Definition matches (raw_tag valid_tag : string) : bool :=
  contains (lower valid_tag) (lower raw_tag).

(** The body of the inner loop, lines 146-147. *)
Definition scan_tag (raw_tag : string) (found_tags : list string)
  (valid_tag : string) : list string :=
  if matches raw_tag valid_tag && bool_decide (valid_tag ∉ found_tags)
  then found_tags ++ [valid_tag]
  else found_tags.

(** The outer loop, lines 144-147. *)
Definition scan_raw_tag (found_tags : list string) (raw_tag : string) : list string :=
  foldl (scan_tag raw_tag) found_tags VALID_TAGS.

(** Lines 141-150: from the answer to the list stored under [tags]. *)
Definition parse_tags (result_str : string) : list string :=
  let raw_tags := map strip (split_comma result_str) in
  let found_tags := foldl scan_raw_tag [] raw_tags in
  match found_tags with
  | [] => ["Other"]
  | _ => found_tags
  end.

Definition tag_item (call : nat → reply) (item : paper) (overwrite : bool)
  : result paper * list event :=
  match negb overwrite, tags item with
  | true, Some _ => (Ok item, [])
  | _, _ =>
      match query_model call with
      | (Raise e, evs) => (Raise e, evs)
      | (Ok result_str, evs) => (Ok (set_tags item (parse_tags result_str)), evs)
      end
  end.

(** [process_wrapper] always calls [tag_item] with [overwrite=True]; the
    handler stores the list [["Error"]]. *)
Definition process_wrapper (call : nat → reply) (item : paper)
  : result (paper * list event) :=
  match tag_item call item true with
  | (Ok item', evs) => Ok (item', evs)
  | (Raise _, evs) => Ok (set_tags item ["Error"], evs ++ [Skipped (title item)])
  end.

(** [executor.map(process_wrapper, items_to_process)] inside the [with]
    block, which waits for every worker.  As in the classifier the
    workers are run in the order of submission. *)
Fixpoint executor_map (oracle : nat → nat → reply) (i : nat) (items : list paper)
  : result (list paper * list event) :=
  match items with
  | [] => Ok ([], [])
  | item :: items' =>
      match process_wrapper (oracle i) item with
      | Raise e => Raise e
      | Ok (item', evs) =>
          match executor_map oracle (S i) items' with
          | Raise e => Raise e
          | Ok (done, evs') => Ok (item' :: done, evs ++ evs')
          end
      end
  end.

Definition nonempty_urls (data : list paper) : gset string :=
  list_to_set (List.filter (λ u, negb (String.eqb u "")) (map url data)).

(** Lines 193-217: the key is looked for only when there is a record to
    tag (line 194); the lines under that test are those of the
    classifier.  [None]: the script exits with status 1 at line 217;
    [Some env']: it reaches line 219 with [env'] for [OPENAI_API_KEY]. *)
Definition resolve_api_key (items_to_process : list paper)
  (env : option string) (kf : Classify.key_file) : option (option string) :=
  match items_to_process with
  | [] => Some env
  | _ :: _ =>
      match Classify.resolve_api_key env kf with
      | Some key => Some (Some key)
      | None => None
      end
  end.

(** [main] from the choice of the papers to process to the sorted
    [final_data].  [existing_output] is what the output file holds when
    it exists and can be read. *)
Definition final_data (all_papers : list paper)
  (existing_output : option (list paper)) (overwrite : bool)
  (oracle : nat → nat → reply) : result (list paper * list event) :=
  let existing_papers :=
    match overwrite, existing_output with
    | false, Some data => data
    | _, _ => []
    end in
  let items_to_process :=
    if overwrite then all_papers
    else
      let existing_urls := nonempty_urls existing_papers in
      List.filter (λ item, bool_decide (url item ∉ existing_urls)) all_papers in
  match items_to_process with
  | [] => Ok (sort_published existing_papers, [])
  | _ =>
      match executor_map oracle 0 items_to_process with
      | Raise e => Raise e
      | Ok (done, evs) => Ok (sort_published (existing_papers ++ done), evs)
      end
  end.

Section WithJson.
Context {J : Json}.

(** Lines 254-255: the output path is opened for writing and filled. *)
Definition save (path : string) (data : list paper) : list fs_op :=
  OpenW path :: map (WriteChunk path) (json_dump data).

End WithJson.

End Tag.

(** ** [shuffle_papers.py] *)

Module Shuffle.

(** [papers] after line 20. *)
Definition sorted_papers (papers : list paper) : list paper :=
  sort_published papers.

Section WithJson.
Context {J : Json}.

(** Lines 23-24: the sorted list goes back into the file it came from. *)
Definition save (path : string) (papers : list paper) : list fs_op :=
  OpenW path :: map (WriteChunk path) (json_dump papers).

(** [shuffle_and_sort_papers]: a missing or unreadable file is reported
    and nothing is written. *)
Definition shuffle_and_sort_papers (data_file_path : string)
  (fs : gmap string string) : list fs_op :=
  match fs !! data_file_path with
  | None => []
  | Some text =>
      match json_load text with
      | None => []
      | Some papers => save data_file_path (sorted_papers papers)
      end
  end.

End WithJson.

End Shuffle.

(** ** The places where a collection is saved *)

Inductive save_site :=
| HarvestSave        (* arxiv_manager_min.py, save_json *)
| ClassifyUnlabeled  (* classify_papers.py, lines 244-245 *)
| ClassifySave       (* classify_papers.py, safe_json_write *)
| TagSave            (* tag_papers.py, lines 254-255 *)
| ShuffleSave.       (* shuffle_papers.py, lines 23-24 *)

Definition save_ops {J : Json} (site : save_site) (path : string)
  (data : list paper) : list fs_op :=
  match site with
  | HarvestSave => Harvest.save_json path data
  | ClassifyUnlabeled => Classify.save_unlabeled path data
  | ClassifySave => Classify.safe_json_write_body data path
  | TagSave => Tag.save path data
  | ShuffleSave => Shuffle.save path data
  end.

(** ** Vocabulary of the statements *)

(** Every adjacent pair [(a, b)] has [a.published >= b.published]. *)
Definition descending (l : list paper) : Prop :=
  ∀ i a b, l !! i = Some a → l !! S i = Some b →
    String.leb (published b) (published a) = true.

Definition desc (a b : paper) : Prop := published_ge a b = true.

Definition has_published (k : string) (r : paper) : bool :=
  String.eqb (published r) k.

(** [r] sits in [l] at a place before which no record has its url. *)
Definition first_occurrence (l : list paper) (r : paper) : Prop :=
  ∃ i, l !! i = Some r ∧ ∀ j x, j < i → l !! j = Some x → url x ≠ url r.

(** The records of [l] whose url is neither in [seen] nor carried by an
    earlier record of [l]. *)
Fixpoint keep_first (seen : gset string) (l : list paper) : list paper :=
  match l with
  | [] => []
  | x :: l' =>
      if decide (url x ∈ seen) then keep_first seen l'
      else x :: keep_first ({[url x]} ∪ seen) l'
  end.

(** The harvested records whose url the persisted collection lacks. *)
Definition new_records (H P : list paper) : list paper :=
  List.filter (λ r, bool_decide (url r ∉ Harvest.urls_of P)) H.

(** Sample data for the closed statements. *)
Definition sample (u p : string) : paper :=
  {| title := "T-" +:+ u; url := u; abstract_ := ""; published := p;
     ai_for_hw := None; tags := None |}.

(** A stand-in for the JSON library in the closed statements: the text of
    a list is the sequence of its urls, one per line; reading splits the
    text again and gives each url a record with the fixed date. *)
Definition toy_dump (data : list paper) : list string :=
  map (λ r, url r +:+ ",") data.

Definition toy_load (text : string) : option (list paper) :=
  Some (map (λ u, sample u "2024-01-01T00:00:00Z")
            (List.filter (λ u, negb (String.eqb u "")) (split_comma text))).

Definition toy_json : Json :=
  {| json_dump := toy_dump; json_load := toy_load |}.

(** The operation can change what the file system holds at [p]. *)
Definition touches (p : string) (op : fs_op) : Prop :=
  match op with
  | OpenW q | WriteChunk q _ | Remove q => q = p
  | Rename src dst => src = p ∨ dst = p
  end.

(** The text [json.dump] leaves in a file it wrote to the end. *)
Definition json_text {J : Json} (data : list paper) : string :=
  foldr String.append "" (json_dump data).

(** The label [classify_item] stores for a record when the model answers
    [content] at the first attempt. *)
Definition answered_label (content : string) (item : paper) : option bool :=
  match (Classify.classify_item (λ _, Answer content) item true).1 with
  | Ok (_, label) => Some label
  | Raise _ => None
  end.

(** The elements of [l] in order, without those of [seen] and without
    repetitions: the first occurrence of each stays. *)
Fixpoint first_seen (seen l : list string) : list string :=
  match l with
  | [] => []
  | x :: l' =>
      if decide (x ∈ seen) then first_seen seen l'
      else x :: first_seen (seen ++ [x]) l'
  end.

(** Fragment after fragment, the vocabulary entries the fragment
    contains, in the order of the vocabulary. *)
Definition fragment_hits (raw_tags : list string) : list string :=
  flat_map (λ raw_tag, List.filter (Tag.matches raw_tag) Tag.VALID_TAGS) raw_tags.

(** The reading of the tag list in the order of the vocabulary: the
    entries that some fragment contains, or ["Other"] when there is none. *)
Definition tags_in_vocabulary_order (result_str : string) : list string :=
  let raw_tags := map strip (split_comma result_str) in
  match List.filter (λ valid_tag, existsb (λ raw_tag, Tag.matches raw_tag valid_tag) raw_tags)
          Tag.VALID_TAGS with
  | [] => ["Other"]
  | found => found
  end.

(** How the calls for one record end, whatever the script does with the
    text afterwards: the text of the first answer, or the exception that
    leaves [query_model]. *)
Definition outcome (call : nat → reply) : result string :=
  (query_attempts (λ content, content) call (seq 1 MAX_RETRY)).1.

(** Whether [classify_item] calls the model for the record. *)
Definition asks_model (overwrite : bool) (item : paper) : bool :=
  overwrite || bool_decide (ai_for_hw item = None).

(** What a worker of the classifier leaves of a record: the label when
    the model was asked and answered, the record as it was otherwise. *)
Definition classified (overwrite : bool) (call : nat → reply) (item : paper) : paper :=
  if asks_model overwrite item then
    match outcome call with
    | Ok content => set_ai_for_hw item (startswith (lower (strip content)) "t")
    | Raise _ => item
    end
  else item.

(** What a worker of the tagger leaves of a record. *)
Definition tagged (call : nat → reply) (item : paper) : paper :=
  match outcome call with
  | Ok content => set_tags item (Tag.parse_tags (strip content))
  | Raise _ => set_tags item ["Error"]
  end.

(** The shape the tagger gives to a list of tags: not empty, without
    repetition, and either the mark of a failed call or entries of the
    vocabulary. *)
Definition well_tagged (item : paper) : Prop :=
  ∀ ts, tags item = Some ts →
    ts ≠ [] ∧ NoDup ts ∧ (length ts ≤ length Tag.VALID_TAGS)%nat
    ∧ (ts = ["Error"] ∨ ∀ t, t ∈ ts → t ∈ Tag.VALID_TAGS).

(** One to three entries of the vocabulary, without repetition. *)
Definition one_to_three_valid_tags (item : paper) : Prop :=
  ∀ ts, tags item = Some ts →
    ts ≠ [] ∧ (length ts ≤ 3)%nat ∧ NoDup ts ∧ ∀ t, t ∈ ts → t ∈ Tag.VALID_TAGS.

(** Two records that differ at most in [ai_for_hw]. *)
Definition same_but_label (a b : paper) : Prop :=
  title a = title b ∧ url a = url b ∧ abstract_ a = abstract_ b
  ∧ published a = published b ∧ tags a = tags b.

(** Two records that differ at most in [tags]. *)
Definition same_but_tags (a b : paper) : Prop :=
  title a = title b ∧ url a = url b ∧ abstract_ a = abstract_ b
  ∧ published a = published b ∧ ai_for_hw a = ai_for_hw b.

(** A text made of white space only: code points of white space, one
    after the other. *)
Inductive blank : string → Prop :=
| blank_nil : blank ""
| blank_cons ch w : isspace ch = true → blank w → blank (ch +:+ w).

(** No byte of the text is a letter from [a] to [z]. *)
Fixpoint no_small_letter (s : string) : bool :=
  match s with
  | "" => true
  | String c s' =>
      negb ((97 <=? nat_of_ascii c)%nat && (nat_of_ascii c <=? 122)%nat)
      && no_small_letter s'
  end.

(** A value of the environment Python takes for true: a string that is
    there and not empty. *)
Definition truthy_spec (v : option string) : Prop :=
  ∃ k, v = Some k ∧ k ≠ "".

(** The first of the members [OPENAI_API_KEY], [api_key] and [key] of
    the key file that is there and that Python takes for true. *)
Definition first_true_member (key_data : gmap string Classify.key_value)
  : option Classify.key_value :=
  List.find (λ v, Classify.truthy_value (Some v))
    (omap (λ name, key_data !! name) ["OPENAI_API_KEY"; "api_key"; "key"]).

(** What can be the key: a string, not empty, without NUL character. *)
Definition usable_key (v : option Classify.key_value) : option string :=
  match v with
  | Some (Classify.KeyString s) =>
      if String.eqb s "" || contains Classify.NUL s then None else Some s
  | _ => None
  end.

(** The records the tagger keeps from its output file, and the records
    of its input it sends to the model. *)
Definition tag_existing (existing_output : option (list paper)) (overwrite : bool)
  : list paper :=
  match overwrite, existing_output with
  | false, Some data => data
  | _, _ => []
  end.

Definition tag_todo (all_papers : list paper)
  (existing_output : option (list paper)) (overwrite : bool) : list paper :=
  if overwrite then all_papers
  else List.filter
         (λ item, bool_decide
            (url item ∉ Tag.nonempty_urls (tag_existing existing_output overwrite)))
         all_papers.

(** [", ".join(vs)] *)
Fixpoint join_comma_space (vs : list string) : string :=
  match vs with
  | [] => ""
  | [v] => v
  | v :: vs' => v +:+ ", " +:+ join_comma_space vs'
  end.

(** The six fields of a date as one number, [YYYYMMDDhhmmss]: for dates
    whose fields are in range, comparing these numbers is comparing the
    dates field by field, the year first. *)
Definition timestamp (d : datetime) : nat :=
  ((((year d * 100 + month d) * 100 + day d) * 100 + hour d) * 100
   + minute d) * 100 + second d.

(** The ranges of the fields of a date, for the years [%Y] prints on
    four digits. *)
Definition valid_datetime (d : datetime) : Prop :=
  (1000 ≤ year d < 100 * 100)%nat ∧ (1 ≤ month d ≤ 12)%nat ∧ (1 ≤ day d ≤ 31)%nat
  ∧ (hour d ≤ 23)%nat ∧ (minute d ≤ 59)%nat ∧ (second d ≤ 59)%nat.

(** The earlier comparison decides, the later one breaks ties. *)
Definition lex (c rest : comparison) : comparison :=
  match c with
  | Eq => rest
  | _ => c
  end.

(** * Properties *)

#[local] Set Warnings "-clear-no-such-hyp".

(** ** The sort is a stable descending sort *)

Lemma published_ge_total a b : published_ge a b = false → published_ge b a = true.
Proof.
  unfold published_ge. intros Hab.
  destruct (String.leb_total (published a) (published b)) as [H|H]; congruence.
Qed.

Lemma published_ge_same a b : published a = published b → published_ge a b = true.
Proof.
  unfold published_ge. intros ->.
  by destruct (String.leb_total (published b) (published b)).
Qed.

Lemma insert_desc_perm x l : Permutation (insert_desc x l) (x :: l).
Proof.
  induction l as [|y l IH]; simpl; [done|].
  destruct (published_ge x y); [done|].
  rewrite IH. apply perm_swap.
Qed.

Lemma sort_published_perm l : Permutation (sort_published l) l.
Proof.
  induction l as [|x l IH]; simpl; [done|].
  rewrite insert_desc_perm. by constructor.
Qed.

Lemma insert_desc_sorted x l : Sorted desc l → Sorted desc (insert_desc x l).
Proof.
  induction 1 as [|y l Hl IH Hy]; simpl.
  - repeat constructor.
  - destruct (published_ge x y) eqn:Hxy.
    + constructor; [by constructor|by constructor].
    + constructor; [done|].
      destruct Hy as [|z l Hyz]; simpl.
      * constructor. by apply published_ge_total.
      * destruct (published_ge x z); constructor; [|done].
        by apply published_ge_total.
Qed.

Lemma sort_published_sorted l : Sorted desc (sort_published l).
Proof.
  induction l as [|x l IH]; simpl; [constructor|]. by apply insert_desc_sorted.
Qed.

Lemma Sorted_descending l : Sorted desc l → descending l.
Proof.
  induction 1 as [|x l Hl IH Hx]; intros i a b Ha Hb; [done|].
  destruct i as [|i]; simpl in *.
  - destruct Hx as [|y l Hxy]; [done|]. simplify_eq/=. exact Hxy.
  - by eapply IH.
Qed.

Lemma insert_desc_filter k x l :
  List.filter (has_published k) (insert_desc x l)
  = List.filter (has_published k) (x :: l).
Proof.
  induction l as [|y l IH]; [done|].
  cbn [insert_desc]. destruct (published_ge x y) eqn:Hxy; [done|].
  cbn [List.filter] in *. rewrite IH.
  destruct (has_published k x) eqn:Hx, (has_published k y) eqn:Hy; try done.
  apply String.eqb_eq in Hx, Hy.
  rewrite published_ge_same in Hxy; congruence.
Qed.

Lemma sort_published_stable k l :
  List.filter (has_published k) (sort_published l)
  = List.filter (has_published k) l.
Proof.
  induction l as [|x l IH]; [done|].
  cbn [sort_published foldr]. rewrite insert_desc_filter.
  cbn [List.filter]. fold (sort_published l). by rewrite IH.
Qed.

Lemma sort_published_descending l : descending (sort_published l).
Proof. apply Sorted_descending, sort_published_sorted. Qed.

(** ** The harvester keeps the first record of every url *)

Lemma first_occurrence_cons x l r :
  first_occurrence (x :: l) r ↔ r = x ∨ (url x ≠ url r ∧ first_occurrence l r).
Proof.
  split.
  - intros [[|i] [Hi Hfirst]]; simpl in Hi.
    + left. congruence.
    + right. split.
      * apply (Hfirst 0 x); [lia|done].
      * exists i. split; [done|]. intros j y Hj Hy. apply (Hfirst (S j) y); [lia|done].
  - intros [->|[Hx [i [Hi Hfirst]]]].
    + exists 0. split; [done|]. intros; lia.
    + exists (S i). split; [done|]. intros [|j] y Hj Hy; simpl in Hy.
      * congruence.
      * apply (Hfirst j y); [lia|done].
Qed.

Lemma keep_first_spec seen l r :
  r ∈ keep_first seen l ↔ (url r ∉ seen) ∧ first_occurrence l r.
Proof.
  revert seen. induction l as [|x l IH]; intros seen; simpl.
  - split.
    + intros Hnil. by apply elem_of_nil in Hnil.
    + by intros [_ [i [? _]]].
  - rewrite first_occurrence_cons. destruct (decide (url x ∈ seen)) as [Hx|Hx].
    + rewrite IH. split.
      * intros [Hr Hfirst]. split; [done|]. right. split; [|done].
        intros E. by rewrite E in Hx.
      * intros [Hr [->|[_ ?]]]; [done|by split].
    + rewrite elem_of_cons, IH. split.
      * intros [->|[Hr ?]]; [by split; [|left]|].
        split; [set_solver|]. right. split; [set_solver|done].
      * intros [Hr [->|[? ?]]]; [by left|]. right. split; [set_solver|done].
Qed.

Lemma keep_first_NoDup seen l : NoDup (map url (keep_first seen l)).
Proof.
  revert seen. induction l as [|x l IH]; intros seen; simpl; [constructor|].
  destruct (decide (url x ∈ seen)); [done|]. simpl. constructor; [|done].
  intros [r [Hr Hin]]%list_elem_of_fmap.
  apply keep_first_spec in Hin as [Hin _]. set_solver.
Qed.

Lemma keep_first_sublist seen l : sublist (keep_first seen l) l.
Proof.
  revert seen. induction l as [|x l IH]; intros seen; simpl; [constructor|].
  destruct (decide (url x ∈ seen)); by constructor.
Qed.

Lemma keep_first_length seen l :
  length (keep_first seen l) = size (Harvest.urls_of l ∖ seen).
Proof.
  revert seen. unfold Harvest.urls_of.
  induction l as [|x l IH]; intros seen; simpl.
  - replace (∅ ∖ seen) with (∅ : gset string) by set_solver. done.
  - destruct (decide (url x ∈ seen)) as [Hx|Hx].
    + rewrite IH. f_equal. set_solver.
    + simpl. rewrite IH.
      replace (({[url x]} ∪ list_to_set (map url l)) ∖ seen)
        with ({[url x]} ∪ (list_to_set (map url l) ∖ ({[url x]} ∪ seen)) : gset string).
      * rewrite (size_union (C:=gset string) {[url x]}) by set_solver.
        by rewrite size_singleton.
      * apply set_eq. intros u. destruct (decide (u = url x)); set_solver.
Qed.

Lemma keep_first_app seen l1 l2 :
  keep_first seen (l1 ++ l2)
  = keep_first seen l1 ++ keep_first (Harvest.urls_of l1 ∪ seen) l2.
Proof.
  revert seen. unfold Harvest.urls_of.
  induction l1 as [|x l1 IH]; intros seen; simpl.
  - f_equal. set_solver.
  - destruct (decide (url x ∈ seen)) as [Hx|Hx]; rewrite IH.
    + do 2 f_equal. set_solver.
    + simpl. do 3 f_equal. set_solver.
Qed.

Lemma accumulate_query_keep_first acc seen l :
  Harvest.accumulate_query (acc, seen) l
  = (acc ++ keep_first seen l, Harvest.urls_of l ∪ seen).
Proof.
  revert acc seen. unfold Harvest.accumulate_query, Harvest.urls_of.
  induction l as [|x l IH]; intros acc seen; simpl.
  - rewrite app_nil_r. f_equal. set_solver.
  - destruct (decide (url x ∈ seen)) as [Hx|Hx]; rewrite IH.
    + f_equal. set_solver.
    + rewrite <- app_assoc. simpl. f_equal. set_solver.
Qed.

Lemma accumulate_from_keep_first acc seen streams :
  foldl Harvest.accumulate_query (acc, seen) streams
  = (acc ++ keep_first seen (concat streams),
     Harvest.urls_of (concat streams) ∪ seen).
Proof.
  revert acc seen. induction streams as [|s streams IH]; intros acc seen; simpl.
  - rewrite app_nil_r. f_equal. unfold Harvest.urls_of. set_solver.
  - rewrite accumulate_query_keep_first, IH, keep_first_app, app_assoc.
    f_equal. unfold Harvest.urls_of. rewrite map_app, list_to_set_app_L. set_solver.
Qed.

Lemma accumulate_keep_first streams :
  Harvest.accumulate streams
  = (keep_first ∅ (concat streams), Harvest.urls_of (concat streams)).
Proof.
  unfold Harvest.accumulate. rewrite accumulate_from_keep_first. simpl.
  f_equal. set_solver.
Qed.

(** Two queries returning [A, B] and [B, C]: [B] is kept once. *)
Example harvest_two_queries :
  let A := sample "A" "2024-01-01T00:00:00Z" in
  let B := sample "B" "2024-02-01T00:00:00Z" in
  let C := sample "C" "2024-03-01T00:00:00Z" in
  (Harvest.accumulate [[A; B]; [B; C]]).1 = [A; B; C]
  ∧ Harvest.harvested [[A; B]; [B; C]] = [C; B; A].
Proof. split; reflexivity. Qed.

(** C2. Over all the result streams of a run, the harvester keeps a
    record exactly when no earlier record (of an earlier query or earlier
    in the same query) carries its url: the kept records have pairwise
    distinct urls, stand in the order they arrived in, and are as many as
    there are distinct urls.  The list is then sorted by [published],
    descending, records of equal [published] keeping their order. *)
Theorem harvest_first_wins_then_stable_sort (streams : list (list paper)) :
  let arrived := concat streams in
  let kept := (Harvest.accumulate streams).1 in
  (∀ r, r ∈ kept ↔ first_occurrence arrived r)
  ∧ NoDup (map url kept)
  ∧ sublist kept arrived
  ∧ length kept = size (Harvest.urls_of arrived)
  ∧ (Harvest.accumulate streams).2 = Harvest.urls_of arrived
  ∧ descending (Harvest.harvested streams)
  ∧ Permutation (Harvest.harvested streams) kept
  ∧ (∀ k, List.filter (has_published k) (Harvest.harvested streams)
          = List.filter (has_published k) kept).
Proof.
  intros arrived kept. subst arrived kept. unfold Harvest.harvested.
  rewrite accumulate_keep_first. simpl. repeat split.
  - by intros [_ ?]%keep_first_spec.
  - intros ?. apply keep_first_spec. split; [set_solver|done].
  - apply keep_first_NoDup.
  - apply keep_first_sublist.
  - rewrite keep_first_length. f_equal. set_solver.
  - apply sort_published_descending.
  - apply sort_published_perm.
  - intros k. apply sort_published_stable.
Qed.

(** ** The incremental merge *)

Lemma merge_items_spec urls acc n l :
  foldl (Harvest.merge_item urls) (acc, n) l
  = (acc ++ List.filter (λ r, bool_decide (url r ∉ urls)) l,
     n + length (List.filter (λ r, bool_decide (url r ∉ urls)) l)).
Proof.
  revert acc n. induction l as [|x l IH]; intros acc n; simpl.
  - by rewrite app_nil_r, Nat.add_0_r.
  - destruct (decide (url x ∈ urls)) as [Hx|Hx]; rewrite IH.
    + by rewrite bool_decide_eq_false_2 by (intros ?; done).
    + rewrite bool_decide_eq_true_2 by done. simpl.
      rewrite <- app_assoc. simpl. f_equal. lia.
Qed.

Lemma merge_spec H P :
  Harvest.merge H P (Harvest.urls_of P)
  = (new_records H P ++ P, length (new_records H P)).
Proof.
  unfold Harvest.merge. by rewrite merge_items_spec.
Qed.

(** Persisted [X], harvested [Y, X]: the result is [Y, X]. *)
Example merge_one_new :
  let X := sample "X" "2024-01-01T00:00:00Z" in
  let Y := sample "Y" "2024-03-01T00:00:00Z" in
  Harvest.merge [Y; X] [X] (Harvest.urls_of [X]) = ([Y; X], 1).
Proof. intros X Y. rewrite merge_spec. reflexivity. Qed.

(** C1. In mode 1 the merged list is the harvested records whose url the
    persisted list lacks, in harvested order, followed by the persisted
    list as it was; the counter [add_count] is the number [k] of new
    records, the first [k] records of the result are the new ones and
    what follows them is the persisted list. *)
Theorem incremental_merge_new_then_old (H P : list paper) :
  let merged := (Harvest.merge H P (Harvest.urls_of P)).1 in
  let k := (Harvest.merge H P (Harvest.urls_of P)).2 in
  merged = new_records H P ++ P
  ∧ k = length (new_records H P)
  ∧ take k merged = new_records H P
  ∧ drop k merged = P
  ∧ (∀ r, r ∈ new_records H P ↔ r ∈ H ∧ ∀ p, p ∈ P → url p ≠ url r).
Proof.
  intros merged k. subst merged k. rewrite merge_spec. simpl.
  split; [done|]. split; [done|]. split; [|split].
  - by rewrite take_app_length.
  - by rewrite drop_app_length.
  - intros r. unfold new_records, Harvest.urls_of.
    rewrite list_elem_of_In, filter_In, <- list_elem_of_In, bool_decide_eq_true.
    rewrite elem_of_list_to_set, list_elem_of_fmap.
    split; intros [Hr Hnot]; (split; [done|]).
    + intros p Hp E. apply Hnot. by exists p.
    + intros [p [E Hp]]. by apply (Hnot p).
Qed.

(** What mode 1 does to the file: it is written, with the merged list,
    exactly when there is a new record. *)
Lemma main_incremental {J : Json} output streams fs P urls :
  Harvest.load_existing fs output = Ok (P, urls) →
  Harvest.main Harvest.Mode1 output streams fs
  = (match new_records (Harvest.harvested streams) P with
     | [] => []
     | _ => Harvest.save_json output
              (new_records (Harvest.harvested streams) P ++ P)
     end, Ok tt).
Proof.
  intros Hload. unfold Harvest.main. rewrite Hload.
  assert (urls = Harvest.urls_of P) as ->.
  { unfold Harvest.load_existing in Hload.
    destruct (fs !! output); [destruct (json_load _)|]; by simplify_eq. }
  rewrite merge_spec. by destruct (new_records _ _).
Qed.

(** C6. In mode 1, when every harvested url is already in the url set of
    the persisted list, the run performs no file operation at all and the
    file system after the run is the one before it. *)
Theorem incremental_no_new_no_write {J : Json} (output : string)
  (streams : list (list paper)) (fs : gmap string string)
  (P : list paper) (urls : gset string) :
  Harvest.load_existing fs output = Ok (P, urls) →
  (∀ r, r ∈ Harvest.harvested streams → url r ∈ urls) →
  Harvest.main Harvest.Mode1 output streams fs = ([], Ok tt)
  ∧ run_ops (Harvest.main Harvest.Mode1 output streams fs).1 fs = fs.
Proof.
  intros Hload Hold. rewrite (main_incremental _ _ _ _ _ Hload).
  assert (urls = Harvest.urls_of P) as ->.
  { unfold Harvest.load_existing in Hload.
    destruct (fs !! output); [destruct (json_load _)|]; by simplify_eq. }
  assert (new_records (Harvest.harvested streams) P = []) as ->; [|done].
  unfold new_records. induction (Harvest.harvested streams) as [|x l IH]; [done|].
  simpl. rewrite bool_decide_eq_false_2.
  - apply IH. intros r Hr. apply Hold. by right.
  - intros Hx. apply Hx, Hold. by left.
Qed.

Lemma incremental_no_new_no_write_witness :
  let X := sample "X" "2024-01-01T00:00:00Z" in
  let fs : gmap string string := {[ "papers.json" := "X," ]} in
  Harvest.load_existing (J:=toy_json) fs "papers.json" = Ok ([X], {[ "X" ]})
  ∧ (∀ r, r ∈ Harvest.harvested [[X]; [X]] → url r ∈ ({[ "X" ]} : gset string))
  ∧ Harvest.main (J:=toy_json) Harvest.Mode1 "papers.json" [[X]; [X]] fs = ([], Ok tt)
  ∧ run_ops (Harvest.main (J:=toy_json) Harvest.Mode1 "papers.json" [[X]; [X]] fs).1 fs
    = fs.
Proof.
  intros X fs.
  assert (Harvest.load_existing (J:=toy_json) fs "papers.json" = Ok ([X], {[ "X" ]}))
    as Hload by (vm_compute; reflexivity).
  assert (∀ r, r ∈ Harvest.harvested [[X]; [X]] → url r ∈ ({[ "X" ]} : gset string))
    as Hold.
  { intros r Hr. vm_compute in Hr.
    apply list_elem_of_singleton in Hr. subst r. simpl. set_solver. }
  split; [exact Hload|]. split; [exact Hold|].
  exact (incremental_no_new_no_write (J:=toy_json) "papers.json" [[X]; [X]] fs
           [X] {[ "X" ]} Hload Hold).
Defined.

(** ** Saving *)

Lemma fs_step_frame p op fs : ¬ touches p op → fs_step fs op !! p = fs !! p.
Proof.
  destruct op as [q|q chunk|src dst|q]; simpl; intros Hp.
  - by rewrite lookup_insert_ne.
  - by rewrite lookup_alter_ne.
  - destruct (fs !! src) eqn:Hsrc; [|done].
    rewrite lookup_insert_ne, lookup_delete_ne; tauto.
  - by rewrite lookup_delete_ne.
Qed.

Lemma run_ops_frame p ops fs :
  Forall (λ op, ¬ touches p op) ops → run_ops ops fs !! p = fs !! p.
Proof.
  unfold run_ops. revert fs. induction ops as [|op ops IH]; intros fs Hops; [done|].
  apply Forall_cons in Hops as [Hop Hops]. simpl.
  by rewrite IH, fs_step_frame.
Qed.

Lemma run_ops_app ops1 ops2 fs :
  run_ops (ops1 ++ ops2) fs = run_ops ops2 (run_ops ops1 fs).
Proof. apply foldl_app. Qed.

Lemma append_cons a s1 s2 : String a s1 +:+ s2 = String a (s1 +:+ s2).
Proof. reflexivity. Qed.

Lemma append_empty_r s : s +:+ "" = s.
Proof. induction s as [|a s IH]; [done|]. by rewrite append_cons, IH. Qed.

Lemma append_assoc s1 s2 s3 : (s1 +:+ s2) +:+ s3 = s1 +:+ (s2 +:+ s3).
Proof. induction s1 as [|a s1 IH]; [done|]. by rewrite !append_cons, IH. Qed.

Lemma run_write_chunks p chunks text fs :
  fs !! p = Some text →
  run_ops (map (WriteChunk p) chunks) fs !! p
  = Some (text +:+ foldr String.append "" chunks).
Proof.
  unfold run_ops. revert text fs.
  induction chunks as [|c chunks IH]; intros text fs Hp; simpl.
  - by rewrite Hp, append_empty_r.
  - rewrite (IH (text +:+ c)).
    + by rewrite append_assoc.
    + by rewrite lookup_alter_eq, Hp.
Qed.

Lemma run_faulty_none ops fs : run_faulty ops None fs = (run_ops ops fs, false).
Proof. revert fs. induction ops as [|op ops IH]; intros fs; simpl; [done|apply IH]. Qed.

Lemma run_faulty_some ops k fs :
  k < length ops → run_faulty ops (Some k) fs = (run_ops (take k ops) fs, true).
Proof.
  revert k fs. induction ops as [|op ops IH]; intros k fs Hk; simpl in *; [lia|].
  destruct k as [|k]; [done|]. apply IH. lia.
Qed.

Lemma length_append s1 s2 :
  String.length (s1 +:+ s2) = String.length s1 + String.length s2.
Proof.
  induction s1 as [|a s1 IH]; [done|]. rewrite append_cons. simpl. by rewrite IH.
Qed.

Lemma temp_path_fresh path : path +:+ ".tmp" ≠ path.
Proof.
  intros E. apply (f_equal String.length) in E.
  rewrite length_append in E. simpl in E. lia.
Qed.

Lemma safe_body_prefix_frame {J : Json} data path n fs :
  n < length (Classify.safe_json_write_body data path) →
  run_ops (take n (Classify.safe_json_write_body data path)) fs !! path
  = fs !! path.
Proof.
  unfold Classify.safe_json_write_body. intros Hn.
  rewrite app_comm_cons, length_app in Hn. simpl in Hn.
  rewrite app_comm_cons, take_app_le by (simpl; lia).
  apply run_ops_frame, Forall_take. constructor.
  - simpl. apply temp_path_fresh.
  - apply Forall_forall. intros op [c [-> _]]%list_elem_of_fmap.
    simpl. apply temp_path_fresh.
Qed.

Lemma safe_body_complete {J : Json} data path fs :
  run_ops (Classify.safe_json_write_body data path) fs !! path
  = Some (json_text data)
  ∧ run_ops (Classify.safe_json_write_body data path) fs !! (path +:+ ".tmp")
  = None.
Proof.
  unfold Classify.safe_json_write_body.
  rewrite app_comm_cons, run_ops_app.
  set (fs1 := run_ops (_ :: _) fs).
  assert (fs1 !! (path +:+ ".tmp") = Some (json_text data)) as Htmp.
  { unfold fs1. change (run_ops (?op :: ?ops) fs) with (run_ops ops (fs_step fs op)).
    rewrite (run_write_chunks _ _ ""); [done|]. simpl. by rewrite lookup_insert_eq. }
  change (run_ops [Rename (path +:+ ".tmp") path] fs1)
    with (fs_step fs1 (Rename (path +:+ ".tmp") path)).
  clearbody fs1. simpl. rewrite Htmp. split.
  - by rewrite lookup_insert_eq.
  - rewrite lookup_insert_ne by (intros E; symmetry in E; by apply temp_path_fresh in E).
    by rewrite lookup_delete_eq.
Qed.

(** C5, as the code has it.  [safe_json_write], which the classifier uses
    for its two files, fills the sibling [path + ".tmp"] and renames it
    onto [path]: a run cut short at any point leaves the text at [path] as
    it was, a complete run leaves the whole new text at [path] and no
    temporary file, and an operation that raises leaves [path] as it was,
    no temporary file, and the exception with the caller.  The other
    saves (the harvester's, the tagger's, the work list of the classifier
    and the re-sorted list of [shuffle_papers.py]) open [path] itself for
    writing: cut short after that first operation, the file at [path] is
    empty. *)
Theorem safe_json_write_atomic_others_in_place {J : Json}
  (data : list paper) (path : string) (fs : gmap string string) :
  let body := Classify.safe_json_write_body data path in
  let temp_path := path +:+ ".tmp" in
  (∀ n, n < length body → run_ops (take n body) fs !! path = fs !! path)
  ∧ (Classify.safe_json_write data path None fs = (run_ops body fs, Ok tt)
     ∧ run_ops body fs !! path = Some (json_text data)
     ∧ run_ops body fs !! temp_path = None)
  ∧ (∀ k, k < length body →
       ∃ fs', Classify.safe_json_write data path (Some k) fs = (fs', Raise IOError)
              ∧ fs' !! temp_path = None
              ∧ fs' !! path = fs !! path)
  ∧ (∀ site, site ≠ ClassifySave →
       take 1 (save_ops site path data) = [OpenW path]
       ∧ run_ops (take 1 (save_ops site path data)) fs !! path = Some "").
Proof.
  intros body temp_path. subst body temp_path. repeat split.
  - intros n Hn. by apply safe_body_prefix_frame.
  - unfold Classify.safe_json_write. by rewrite run_faulty_none.
  - apply safe_body_complete.
  - apply safe_body_complete.
  - intros k Hk. unfold Classify.safe_json_write.
    rewrite run_faulty_some by done.
    pose proof (safe_body_prefix_frame data path k fs Hk) as Hpath.
    destruct (run_ops _ fs !! (path +:+ ".tmp")) eqn:Htmp; eexists; (split; [done|]).
    + simpl. split; [by rewrite lookup_delete_eq|].
      rewrite lookup_delete_ne by apply temp_path_fresh. done.
    + by split.
  - by destruct site.
  - destruct site; try done; simpl; unfold run_ops; simpl; by rewrite lookup_insert_eq.
Qed.

(** C5 as stated fails: the tagger's save, cut short after its first
    operation, has emptied the file that was there. *)
Lemma tagger_save_not_atomic :
  ¬ (∀ (J : Json) (site : save_site) (path : string) (data : list paper)
       (fs : gmap string string) (n : nat),
       n < length (save_ops site path data) →
       run_ops (take n (save_ops site path data)) fs !! path = fs !! path).
Proof.
  intros Hall.
  specialize (Hall toy_json TagSave "tagged_papers.json"
                [sample "X" "2024-01-01T00:00:00Z"]
                {[ "tagged_papers.json" := "X," ]} 1).
  vm_compute in Hall. specialize (Hall (le_n _)). discriminate Hall.
Qed.

(** ** White space *)

Lemma isspace_elem ch : isspace ch = true ↔ ch ∈ map utf8 WHITESPACE.
Proof.
  unfold isspace. rewrite existsb_exists. split.
  - intros (x & Hx%list_elem_of_In & ->%String.eqb_eq). done.
  - intros Hch. exists ch. split; [by apply list_elem_of_In|apply String.eqb_refl].
Qed.

Ltac space_cases H :=
  apply isspace_elem in H;
  let l := eval vm_compute in (map utf8 WHITESPACE) in
  change (map utf8 WHITESPACE) with l in H;
  repeat (apply elem_of_cons in H as [->|H]); [..|by apply elem_of_nil in H].

Lemma isspace_shape ch :
  isspace ch = true →
  ∃ a s, ch = String a s
         ∧ (s = "" ∨ (∃ b, s = String b "") ∨ (∃ b c, s = String b (String c ""))).
Proof.
  intros H. space_cases H; eexists _, _; (split; [reflexivity|]); eauto.
Qed.

Lemma lstrip_space ch s : isspace ch = true → lstrip (ch +:+ s) = lstrip s.
Proof. intros H. space_cases H; reflexivity. Qed.

(** Where [lstrip] stops, no code point of white space begins. *)
Lemma lstrip_cases s :
  (lstrip s = s ∧ ∀ ch rest, isspace ch = true → s ≠ ch +:+ rest)
  ∨ ∃ ch s', isspace ch = true ∧ s = ch +:+ s' ∧ lstrip s = lstrip s'.
Proof.
  destruct s as [|a s1].
  { left. split; [done|]. intros ch rest Hch E.
    destruct (isspace_shape ch Hch) as (x & t & -> & _). discriminate E. }
  cbn [lstrip].
  destruct (isspace (String a "")) eqn:H1.
  { right. by exists (String a ""), s1. }
  destruct s1 as [|b s2].
  { left. split; [done|]. intros ch rest Hch E.
    destruct (isspace_shape ch Hch) as (x & t & -> & Ht).
    rewrite append_cons in E. injection E as <- E.
    destruct t; [congruence|discriminate E]. }
  destruct (isspace (String a (String b ""))) eqn:H2.
  { right. by exists (String a (String b "")), s2. }
  destruct s2 as [|c s3].
  { left. split; [done|]. intros ch rest Hch E.
    destruct (isspace_shape ch Hch) as (x & t & -> & Ht).
    rewrite append_cons in E. injection E as <- E.
    destruct Ht as [->|[(y & ->)|(y & z & ->)]].
    - congruence.
    - rewrite append_cons in E. injection E as <- E. congruence.
    - discriminate E. }
  destruct (isspace (String a (String b (String c "")))) eqn:H3.
  { right. by exists (String a (String b (String c ""))), s3. }
  left. split; [done|]. intros ch rest Hch E.
  destruct (isspace_shape ch Hch) as (x & t & -> & Ht).
  rewrite append_cons in E. injection E as <- E.
  destruct Ht as [->|[(y & ->)|(y & z & ->)]].
  - congruence.
  - rewrite append_cons in E. injection E as <- E. congruence.
  - rewrite !append_cons in E. injection E as <- <- E. congruence.
Qed.

Lemma isspace_nonempty ch : isspace ch = true → (0 < String.length ch)%nat.
Proof.
  intros Hch. destruct (isspace_shape ch Hch) as (x & t & -> & _). simpl. lia.
Qed.

Lemma lstrip_spec s :
  (∃ w, blank w ∧ s = w +:+ lstrip s)
  ∧ ∀ ch rest, isspace ch = true → lstrip s ≠ ch +:+ rest.
Proof.
  remember (String.length s) as n eqn:Hn. revert s Hn.
  induction n as [n IH] using lt_wf_ind. intros s ->.
  destruct (lstrip_cases s) as [[Hfix Hno]|(ch & s' & Hch & -> & Hstep)].
  - rewrite Hfix. split; [|done]. exists "". split; [constructor|done].
  - rewrite Hstep.
    destruct (IH (String.length s')) with (s := s') as [(w & Hw & Hs') Hno]; [|done|].
    { rewrite length_append. pose proof (isspace_nonempty ch Hch). lia. }
    split; [|done]. exists (ch +:+ w). split; [by constructor|].
    by rewrite append_assoc, <- Hs'.
Qed.

Lemma rstrip_spec s :
  (∃ w, blank w ∧ s = rstrip s +:+ w)
  ∧ ∀ ch rest, isspace ch = true → rstrip s ≠ rest +:+ ch.
Proof.
  induction s as [|c s [(w & Hw & Hs) Hno]].
  - split; [exists ""; split; [constructor|done]|].
    intros ch rest Hch E. apply (f_equal String.length) in E.
    rewrite length_append in E. pose proof (isspace_nonempty ch Hch).
    simpl in E. lia.
  - cbn [rstrip]. cbv zeta.
    destruct (isspace (String c (rstrip s))) eqn:Hc.
    + split.
      * exists (String c (rstrip s) +:+ w). split; [by constructor|].
        by rewrite append_cons, <- Hs.
      * intros ch rest Hch E. apply (f_equal String.length) in E.
        rewrite length_append in E. pose proof (isspace_nonempty ch Hch).
        simpl in E. lia.
    + split.
      * exists w. split; [done|]. by rewrite append_cons, <- Hs.
      * intros ch rest Hch E. destruct rest as [|x rest].
        -- change ("" +:+ ch) with ch in E. congruence.
        -- rewrite append_cons in E. injection E as <- E. by eapply Hno.
Qed.

(** [strip] takes away white space, all of it, and only at the two
    ends. *)
Lemma strip_spec s :
  (∃ l r, blank l ∧ blank r ∧ s = l +:+ strip s +:+ r)
  ∧ ∀ ch rest, isspace ch = true →
      strip s ≠ ch +:+ rest ∧ strip s ≠ rest +:+ ch.
Proof.
  unfold strip.
  destruct (lstrip_spec s) as [(l & Hl & Hs) Hleft].
  destruct (rstrip_spec (lstrip s)) as [(r & Hr & Hs') Hright].
  split.
  - exists l, r. split; [done|]. split; [done|]. by rewrite <- Hs'.
  - intros ch rest Hch. split; [|by apply Hright].
    intros E. apply (Hleft ch (rest +:+ r) Hch).
    by rewrite Hs', E, append_assoc.
Qed.

(** ** Case and white space *)

Lemma lower_char_cases c :
  lower_char c = c
  ∨ (97 <=? nat_of_ascii (lower_char c))%nat && (nat_of_ascii (lower_char c) <=? 122)%nat = true.
Proof. destruct c as [[] [] [] [] [] [] [] []]; vm_compute; auto. Qed.

Lemma lower_fixed s : no_small_letter (lower s) = true → lower s = s.
Proof.
  induction s as [|c s IH]; [done|]. cbn [lower no_small_letter].
  intros [Hc Hs]%andb_true_iff. rewrite IH by done. f_equal.
  destruct (lower_char_cases c) as [E|E]; [done|].
  rewrite E in Hc. discriminate Hc.
Qed.

Lemma isspace_lower ch : isspace (lower ch) = isspace ch.
Proof.
  destruct (isspace ch) eqn:Hch.
  - assert (lower ch = ch) as ->; [|done]. space_cases Hch; reflexivity.
  - destruct (isspace (lower ch)) eqn:Hl; [|done].
    assert (lower ch = ch) as E.
    { apply lower_fixed. space_cases Hl; reflexivity. }
    congruence.
Qed.

Lemma lstrip_lower s : lstrip (lower s) = lower (lstrip s).
Proof.
  remember (String.length s) as n eqn:Hn. revert s Hn.
  induction n as [n IH] using lt_wf_ind. intros s ->.
  destruct s as [|a s1]; [done|]. cbn [lower lstrip].
  change (String (lower_char a) "") with (lower (String a "")).
  rewrite isspace_lower.
  destruct (isspace (String a "")).
  { apply (IH (String.length s1)); [simpl; lia|done]. }
  destruct s1 as [|b s2]; [done|]. cbn [lower].
  change (String (lower_char a) (String (lower_char b) ""))
    with (lower (String a (String b ""))).
  rewrite isspace_lower.
  destruct (isspace (String a (String b ""))).
  { apply (IH (String.length s2)); [simpl; lia|done]. }
  destruct s2 as [|c s3]; [done|]. cbn [lower].
  change (String (lower_char a) (String (lower_char b) (String (lower_char c) "")))
    with (lower (String a (String b (String c "")))).
  rewrite isspace_lower.
  destruct (isspace (String a (String b (String c "")))); [|done].
  apply (IH (String.length s3)); [simpl; lia|done].
Qed.

Lemma rstrip_lower s : rstrip (lower s) = lower (rstrip s).
Proof.
  induction s as [|c s IH]; [done|]. cbn [lower rstrip]. cbv zeta. rewrite IH.
  change (String (lower_char c) (lower (rstrip s)))
    with (lower (String c (rstrip s))).
  rewrite isspace_lower. by destruct (isspace (String c (rstrip s))).
Qed.

Lemma strip_lower s : strip (lower s) = lower (strip s).
Proof. unfold strip. by rewrite lstrip_lower, rstrip_lower. Qed.

(** ** Reading the answer of the classifier *)

Lemma lower_char_t c :
  lower_char c = "t"%char ↔ c = "t"%char ∨ c = "T"%char.
Proof.
  split.
  - destruct c as [[] [] [] [] [] [] [] []]; vm_compute; intros E;
      first [discriminate E | by left | by right].
  - by intros [->| ->].
Qed.

Lemma startswith_t s :
  startswith (lower s) "t" = true
  ↔ ∃ c rest, s = String c rest ∧ (c = "t"%char ∨ c = "T"%char).
Proof.
  destruct s as [|c rest]; cbn [startswith lower].
  - split; [done|]. by intros (? & ? & ? & _).
  - rewrite andb_true_r, Ascii.eqb_eq, lower_char_t. split.
    + intros Hc. by exists c, rest.
    + intros (c' & rest' & E & Hc). by simplify_eq.
Qed.

(** C8, as the code has it.  The answer is stripped of surrounding white
    space and put in lower case, and the label is true exactly when what
    remains begins with the letter [t], that is when the stripped answer
    begins with [t] or [T].  Stripping takes away code points of white
    space, in Python's sense of [str.isspace], at the two ends and
    nothing else, and leaves none at either end.  The answer [True.]
    gives true, the answer [no] gives false, and [true] after a no-break
    space gives true. *)
Theorem label_true_iff_answer_starts_with_t (content : string) (item : paper) :
  let label := startswith (lower (strip content)) "t" in
  Classify.classify_item (λ _, Answer content) item true
  = (Ok (set_ai_for_hw item label, label), [])
  ∧ answered_label content item = Some label
  ∧ (label = true
     ↔ ∃ c rest, strip content = String c rest ∧ (c = "t"%char ∨ c = "T"%char))
  ∧ (∃ l r, blank l ∧ blank r ∧ content = l +:+ strip content +:+ r)
  ∧ (∀ ch rest, isspace ch = true →
       strip content ≠ ch +:+ rest ∧ strip content ≠ rest +:+ ch)
  ∧ answered_label "True." item = Some true
  ∧ answered_label "no" item = Some false
  ∧ answered_label (utf8 0xA0 +:+ "true") item = Some true.
Proof.
  intros label. subst label.
  destruct (strip_spec content) as [Hends Hnone].
  split; [reflexivity|]. split; [reflexivity|]. split; [apply startswith_t|].
  split; [exact Hends|]. split; [exact Hnone|].
  split; [reflexivity|]. split; reflexivity.
Qed.

(** C8 as stated fails: the answer [to] does not start with [true], yet
    the label is true. *)
Lemma label_true_without_true :
  ¬ (∀ (content : string) (item : paper),
       answered_label content item = Some true
       ↔ startswith (lower content) "true" = true).
Proof.
  intros Hall.
  destruct (Hall "to" (sample "X" "2024-01-01T00:00:00Z")) as [Hto _].
  vm_compute in Hto. specialize (Hto eq_refl). discriminate Hto.
Qed.

(** ** Reading the answer of the tagger *)

Lemma first_seen_app seen l1 l2 :
  first_seen seen (l1 ++ l2)
  = first_seen seen l1 ++ first_seen (seen ++ first_seen seen l1) l2.
Proof.
  revert seen. induction l1 as [|x l1 IH]; intros seen; simpl.
  - by rewrite app_nil_r.
  - destruct (decide (x ∈ seen)); [apply IH|].
    rewrite IH. simpl. by rewrite <- app_assoc.
Qed.

Lemma first_seen_elem seen l x :
  x ∈ first_seen seen l ↔ x ∈ l ∧ x ∉ seen.
Proof.
  revert seen. induction l as [|y l IH]; intros seen; simpl.
  - split; [intros H; by apply elem_of_nil in H|].
    intros [H _]. by apply elem_of_nil in H.
  - destruct (decide (y ∈ seen)) as [Hy|Hy].
    + rewrite IH, elem_of_cons. split; [tauto|].
      intros [[->|?] ?]; [done|by split].
    + rewrite !elem_of_cons, IH, elem_of_app, list_elem_of_singleton.
      destruct (decide (x = y)) as [->|Hne]; [tauto|]. tauto.
Qed.

Lemma first_seen_NoDup seen l : NoDup (first_seen seen l).
Proof.
  revert seen. induction l as [|y l IH]; intros seen; simpl; [constructor|].
  destruct (decide (y ∈ seen)); [done|]. constructor; [|done].
  rewrite first_seen_elem, elem_of_app, list_elem_of_singleton. tauto.
Qed.

Lemma scan_tags_spec raw_tag found_tags vocabulary :
  foldl (Tag.scan_tag raw_tag) found_tags vocabulary
  = found_tags ++ first_seen found_tags (List.filter (Tag.matches raw_tag) vocabulary).
Proof.
  revert found_tags. induction vocabulary as [|v vocabulary IH]; intros found_tags.
  - simpl. by rewrite app_nil_r.
  - cbn [foldl List.filter]. unfold Tag.scan_tag at 2.
    destruct (Tag.matches raw_tag v); [|apply IH]. cbn [andb first_seen].
    destruct (decide (v ∈ found_tags)) as [Hv|Hv].
    + rewrite bool_decide_eq_false_2 by (intros ?; done). apply IH.
    + rewrite bool_decide_eq_true_2 by done. by rewrite IH, <- app_assoc.
Qed.

Lemma scan_raw_tags_spec found_tags raw_tags :
  foldl Tag.scan_raw_tag found_tags raw_tags
  = found_tags ++ first_seen found_tags (fragment_hits raw_tags).
Proof.
  revert found_tags. unfold fragment_hits.
  induction raw_tags as [|raw raw_tags IH]; intros found_tags.
  - simpl. by rewrite app_nil_r.
  - cbn [foldl flat_map]. unfold Tag.scan_raw_tag at 2.
    by rewrite scan_tags_spec, IH, first_seen_app, app_assoc.
Qed.

Lemma fragment_hits_elem raw_tags v :
  v ∈ fragment_hits raw_tags
  ↔ v ∈ Tag.VALID_TAGS ∧ ∃ raw_tag, raw_tag ∈ raw_tags ∧ Tag.matches raw_tag v = true.
Proof.
  unfold fragment_hits.
  rewrite list_elem_of_In, in_flat_map. split.
  - intros (raw & Hraw & Hv). apply filter_In in Hv as [Hv Hm].
    split; [by apply list_elem_of_In|]. exists raw. by rewrite list_elem_of_In.
  - intros (Hv & raw & Hraw & Hm). exists raw. rewrite filter_In.
    by rewrite <- !list_elem_of_In.
Qed.

Lemma parse_tags_spec result_str :
  Tag.parse_tags result_str
  = match first_seen [] (fragment_hits (map strip (split_comma result_str))) with
    | [] => ["Other"]
    | found => found
    end.
Proof.
  unfold Tag.parse_tags. rewrite scan_raw_tags_spec, app_nil_l.
  by destruct (first_seen _ _).
Qed.

(** C9, as the code has it.  The answer is split at the commas and every
    fragment is stripped; a vocabulary entry matches a fragment when the
    fragment, in lower case, contains the entry in lower case.  The list
    stored holds exactly the entries that match some fragment, each once,
    ordered by the first fragment that matches them and, among the
    entries first matched by one fragment, by their place in the
    vocabulary.  When no entry matches any fragment the list is
    [["Other"]].  The answer [Verification, Code Generation] gives
    [["Verification"; "Code Generation"]]. *)
Theorem tags_by_fragment_then_vocabulary (result_str : string) :
  let raw_tags := map strip (split_comma result_str) in
  let found_tags := Tag.parse_tags result_str in
  found_tags = match first_seen [] (fragment_hits raw_tags) with
               | [] => ["Other"]
               | found => found
               end
  ∧ NoDup found_tags
  ∧ ((∃ raw_tag v, raw_tag ∈ raw_tags ∧ v ∈ Tag.VALID_TAGS
                   ∧ Tag.matches raw_tag v = true) →
     ∀ v, v ∈ found_tags
          ↔ v ∈ Tag.VALID_TAGS
            ∧ ∃ raw_tag, raw_tag ∈ raw_tags ∧ Tag.matches raw_tag v = true)
  ∧ ((∀ raw_tag v, raw_tag ∈ raw_tags → v ∈ Tag.VALID_TAGS →
                   Tag.matches raw_tag v = false) →
     found_tags = ["Other"])
  ∧ Tag.parse_tags "Verification, Code Generation"
    = ["Verification"; "Code Generation"].
Proof.
  intros raw_tags found_tags. subst found_tags.
  rewrite parse_tags_spec. fold raw_tags.
  pose proof (first_seen_NoDup [] (fragment_hits raw_tags)) as Hnodup.
  pose proof (first_seen_elem [] (fragment_hits raw_tags)) as Helem.
  destruct (first_seen [] (fragment_hits raw_tags)) as [|t found] eqn:Hfound.
  - split; [done|]. split; [apply NoDup_singleton|]. split; [|split; done].
    intros (raw & v & Hraw & Hv & Hm). exfalso.
    apply (elem_of_nil v), Helem. split; [|apply not_elem_of_nil].
    apply fragment_hits_elem. split; [done|]. by exists raw.
  - split; [done|]. split; [done|]. split; [|split; [|done]].
    + intros _ v. rewrite Helem, fragment_hits_elem.
      split; [tauto|]. intros ?. split; [done|apply not_elem_of_nil].
    + intros Hnone. exfalso.
      assert (t ∈ fragment_hits raw_tags) as Ht.
      { apply (proj1 (Helem t)). by left. }
      apply fragment_hits_elem in Ht as (Hv & raw & Hraw & Hm).
      rewrite (Hnone raw t Hraw Hv) in Hm. discriminate Hm.
Qed.

(** C9 as stated fails on the order: for the answer
    [Code Generation, Verification] the list follows the fragments, not
    the vocabulary, in which [Verification] comes first. *)
Lemma tags_not_in_vocabulary_order :
  Tag.parse_tags "Code Generation, Verification" = ["Code Generation"; "Verification"]
  ∧ tags_in_vocabulary_order "Code Generation, Verification"
    = ["Verification"; "Code Generation"]
  ∧ ¬ (∀ result_str, Tag.parse_tags result_str = tags_in_vocabulary_order result_str).
Proof.
  split; [reflexivity|]. split; [reflexivity|].
  intros Hall. specialize (Hall "Code Generation, Verification").
  vm_compute in Hall. discriminate Hall.
Qed.

(** ** The calls to the model *)

(** Three attempts: an answer or a foreign exception ends them at once,
    an [OpenAIError] is retried twice and raised at the third attempt. *)
Lemma outcome_cases call :
  outcome call
  = match call 1 with
    | Answer content => Ok content
    | Broken => Raise OtherException
    | ApiError =>
        match call 2 with
        | Answer content => Ok content
        | Broken => Raise OtherException
        | ApiError =>
            match call 3 with
            | Answer content => Ok content
            | Broken => Raise OtherException
            | ApiError => Raise OpenAIError
            end
        end
    end.
Proof.
  unfold outcome. simpl.
  destruct (call 1); [done| |done]. simpl.
  destruct (call 2); [done| |done]. simpl.
  by destruct (call 3).
Qed.

Lemma query_attempts_post post call attempts :
  (query_attempts post call attempts).1
  = match (query_attempts (λ content, content) call attempts).1 with
    | Ok content => Ok (post content)
    | Raise e => Raise e
    end.
Proof.
  induction attempts as [|attempt attempts IH]; simpl; [done|].
  destruct (call attempt); [done| |done].
  destruct (Nat.eqb attempt MAX_RETRY); [done|].
  destruct (query_attempts post call attempts) as [r evs].
  destruct (query_attempts (λ content, content) call attempts) as [r' evs'].
  simpl in *. done.
Qed.

Lemma classify_item_cases call item overwrite :
  (Classify.classify_item call item overwrite).1
  = if asks_model overwrite item then
      match outcome call with
      | Ok content =>
          let label := startswith (lower (strip content)) "t" in
          Ok (set_ai_for_hw item label, label)
      | Raise e => Raise e
      end
    else match ai_for_hw item with
         | Some label => Ok (item, label)
         | None => Raise OtherException
         end.
Proof.
  unfold Classify.classify_item, Classify.query_model, asks_model, outcome.
  pose proof (query_attempts_post (λ content, lower (strip content)) call
                (seq 1 MAX_RETRY)) as Hpost.
  set (q := query_attempts (λ content, lower (strip content)) call _) in *.
  set (q0 := (query_attempts (λ content, content) call _).1) in *.
  clearbody q q0. destruct q as [r evs]. cbn [fst] in Hpost. subst r.
  by destruct overwrite, (ai_for_hw item), q0.
Qed.

Lemma tag_process_wrapper_cases call item :
  ∃ evs,
    Tag.process_wrapper call item
    = Ok (match outcome call with
          | Ok content => set_tags item (Tag.parse_tags (strip content))
          | Raise _ => set_tags item ["Error"]
          end, evs)
    ∧ (∀ e, outcome call = Raise e → Skipped (title item) ∈ evs).
Proof.
  unfold Tag.process_wrapper, Tag.tag_item, Tag.query_model, outcome.
  pose proof (query_attempts_post strip call (seq 1 MAX_RETRY)) as Hpost.
  set (q := query_attempts strip call _) in *.
  set (q0 := (query_attempts (λ content, content) call _).1) in *.
  clearbody q q0. destruct q as [r evs]. cbn [fst negb] in *. subst r.
  destruct q0 as [content|e].
  - eexists. split; [done|]. intros e He. discriminate He.
  - eexists. split; [done|]. intros _ _. apply elem_of_app. right. by left.
Qed.

(** ** The batches *)

Lemma classify_process_wrapper_spec overwrite total call st r item :
  Classify.objs st !! r = Some item →
  ∃ evs,
    Classify.process_wrapper overwrite total call st r
    = Ok {| Classify.objs := <[r := classified overwrite call item]> (Classify.objs st);
            Classify.processed_count := S (Classify.processed_count st);
            Classify.log := Classify.log st ++ evs |}
    ∧ (asks_model overwrite item = true → ∀ e, outcome call = Raise e →
       Skipped (title item) ∈ evs).
Proof.
  intros Hr. unfold Classify.process_wrapper. rewrite Hr.
  pose proof (classify_item_cases call item overwrite) as Hcases.
  unfold classified.
  destruct (Classify.classify_item call item overwrite) as [res evs].
  cbn [fst] in Hcases. subst res.
  destruct (asks_model overwrite item) eqn:Hasks.
  - destruct (outcome call) as [content|e]; cbn zeta; unfold Classify.tick;
      cbn [Classify.objs Classify.processed_count Classify.log]; eexists.
    + split; [done|]. intros _ e He. discriminate He.
    + rewrite list_insert_id by done. split; [done|].
      intros _ _ _. rewrite !elem_of_app. left. right. by left.
  - unfold asks_model in Hasks. apply orb_false_iff in Hasks as [_ Hnone].
    apply bool_decide_eq_false in Hnone.
    destruct (ai_for_hw item) as [label|]; [|done].
    unfold Classify.tick; cbn [Classify.objs Classify.processed_count Classify.log].
    eexists. rewrite list_insert_id by done. split; [done|]. intros Hf. discriminate Hf.
Qed.

Lemma classify_executor_map_spec overwrite total oracle items :
  ∀ i st,
  NoDup items →
  (∀ r, r ∈ items → is_Some (Classify.objs st !! r)) →
  ∃ st',
    Classify.executor_map overwrite total oracle i items st = Ok st'
    ∧ Classify.processed_count st' = Classify.processed_count st + length items
    ∧ length (Classify.objs st') = length (Classify.objs st)
    ∧ (∀ r, r ∉ items → Classify.objs st' !! r = Classify.objs st !! r)
    ∧ (∀ ev, ev ∈ Classify.log st → ev ∈ Classify.log st')
    ∧ (∀ j r item, items !! j = Some r → Classify.objs st !! r = Some item →
         Classify.objs st' !! r = Some (classified overwrite (oracle (i + j)) item)
         ∧ (asks_model overwrite item = true →
            ∀ e, outcome (oracle (i + j)) = Raise e →
            Skipped (title item) ∈ Classify.log st')).
Proof.
  induction items as [|r items IH]; intros i st Hnodup Hvalid.
  - exists st. simpl. repeat split; [lia|done..].
  - apply NoDup_cons in Hnodup as [Hr Hnodup].
    destruct (Hvalid r) as [item Hitem]; [by left|].
    destruct (classify_process_wrapper_spec overwrite total (oracle i) st r item Hitem)
      as (evs & Hstep & Hskip).
    cbn [Classify.executor_map]. rewrite Hstep.
    set (st1 := Classify.mkState _ _ _) in *.
    destruct (IH (S i) st1 Hnodup) as (st' & Hrun & Hcount & Hlen & Hframe & Hlog & Hitems).
    { intros r' Hr'. apply lookup_lt_is_Some. cbn. rewrite length_insert.
      apply lookup_lt_is_Some, Hvalid. by right. }
    exists st'. split; [done|]. split; [rewrite Hcount; cbn; lia|].
    split; [rewrite Hlen; cbn; by rewrite length_insert|].
    split; [|split].
    + intros r' Hr'. apply not_elem_of_cons in Hr' as [Hne Hr'].
      rewrite Hframe by done. cbn. by rewrite list_lookup_insert_ne.
    + intros ev Hev. apply Hlog. cbn. apply elem_of_app. by left.
    + intros [|j] r' item' Hj Hitem'; simpl in Hj.
      * simplify_eq. rewrite Nat.add_0_r. split.
        -- rewrite Hframe by done. cbn.
           apply list_lookup_insert_eq. by eapply lookup_lt_Some.
        -- intros Hasks e He. apply Hlog. cbn. apply elem_of_app. right.
           by eapply Hskip.
      * assert (r' ≠ r) as Hne.
        { intros ->. apply Hr. by eapply list_elem_of_lookup_2. }
        replace (i + S j) with (S i + j) by lia.
        apply Hitems; [done|]. cbn. by rewrite list_lookup_insert_ne.
Qed.

Lemma select_elem keep data :
  ∀ base r : nat, r ∈ Classify.select keep base data →
    (base ≤ r)%nat ∧ ∃ item, data !! (r - base) = Some item ∧ keep item = true.
Proof.
  induction data as [|x data IH]; intros base r Hr; simpl in Hr.
  - by apply elem_of_nil in Hr.
  - assert (r ∈ Classify.select keep (S base) data →
            (base ≤ r)%nat
            ∧ ∃ item, (x :: data) !! (r - base) = Some item ∧ keep item = true)
      as Htail.
    { intros [Hle (item & Hitem & Hkeep)]%IH. split; [lia|]. exists item.
      split; [|done]. replace (r - base) with (S (r - S base)) by lia. done. }
    destruct (keep x) eqn:Hx; [|by apply Htail].
    apply elem_of_cons in Hr as [->|Hr]; [|by apply Htail].
    split; [lia|]. exists x. by rewrite Nat.sub_diag.
Qed.

Lemma select_NoDup keep data : ∀ base, NoDup (Classify.select keep base data).
Proof.
  induction data as [|x data IH]; intros base; simpl; [constructor|].
  destruct (keep x); [|done]. constructor; [|done].
  intros [Hle _]%select_elem. lia.
Qed.

Lemma items_to_process_valid data labeled_data overwrite r :
  r ∈ Classify.items_to_process data labeled_data overwrite →
  ∃ item, data !! r = Some item ∧ Classify.store data labeled_data !! r = Some item.
Proof.
  unfold Classify.items_to_process, Classify.store. intros Hr.
  assert (∃ item, data !! r = Some item) as [item Hitem].
  { destruct labeled_data; apply select_elem in Hr as [_ (item & Hitem & _)];
      rewrite Nat.sub_0_r in Hitem; by exists item. }
  exists item. split; [done|]. destruct labeled_data; [|done].
  by apply lookup_app_l_Some.
Qed.

Lemma items_to_process_NoDup data labeled_data overwrite :
  NoDup (Classify.items_to_process data labeled_data overwrite).
Proof. unfold Classify.items_to_process. destruct labeled_data; apply select_NoDup. Qed.

Lemma tag_executor_map_spec oracle items :
  ∀ i, ∃ done evs,
    Tag.executor_map oracle i items = Ok (done, evs)
    ∧ length done = length items
    ∧ (∀ j item, items !! j = Some item →
         done !! j = Some (tagged (oracle (i + j)) item)
         ∧ (∀ e, outcome (oracle (i + j)) = Raise e → Skipped (title item) ∈ evs)).
Proof.
  induction items as [|item items IH]; intros i.
  - exists [], []. by repeat split.
  - destruct (tag_process_wrapper_cases (oracle i) item) as (evs & Hstep & Hskip).
    destruct (IH (S i)) as (done & evs' & Hrun & Hlen & Hitems).
    cbn [Tag.executor_map]. rewrite Hstep, Hrun. eexists _, _.
    split; [done|]. split; [simpl; by rewrite Hlen|].
    intros [|j] item' Hj; simpl in Hj.
    + simplify_eq. rewrite Nat.add_0_r. split; [done|].
      intros e He. apply elem_of_app. left. by eapply Hskip.
    + replace (i + S j) with (S i + j) by lia.
      destruct (Hitems j item' Hj) as [Hdone Hev]. split; [done|].
      intros e He. apply elem_of_app. right. by eapply Hev.
Qed.

(** C7, as the code has it.  In a batch of either annotator every worker
    comes to an end and so does the batch, whatever the calls do.  A
    record of the classifier whose calls fail for good is left as it was
    (without [ai_for_hw] if it had none; under [--overwrite] a record that
    had a label keeps it) and a line is printed for it; a record of the
    tagger whose calls fail for good gets the tags [["Error"]] and a line
    is printed for it.  Every other record gets what its own calls
    yield. *)
Theorem batch_survives_failed_calls (data : list paper)
  (labeled_data : option (list paper)) (overwrite : bool)
  (papers : list paper) (existing_output : option (list paper))
  (oracle : nat → nat → reply) :
  let items := Classify.items_to_process data labeled_data overwrite in
  (∃ st,
      Classify.executor_map overwrite (length items) oracle 0 items
        (Classify.initial data labeled_data) = Ok st
      ∧ Classify.processed_count st = length items
      ∧ ∀ j r, items !! j = Some r →
          ∃ item, data !! r = Some item
            ∧ Classify.objs st !! r = Some (classified overwrite (oracle j) item)
            ∧ (asks_model overwrite item = true →
               ∀ e, outcome (oracle j) = Raise e →
                 Classify.objs st !! r = Some item
                 ∧ Skipped (title item) ∈ Classify.log st))
  ∧ (∃ st refs, Classify.annotate data labeled_data overwrite oracle = Ok (st, refs))
  ∧ (∃ done evs,
      Tag.executor_map oracle 0 papers = Ok (done, evs)
      ∧ length done = length papers
      ∧ ∀ j item, papers !! j = Some item →
          done !! j = Some (tagged (oracle j) item)
          ∧ (∀ e, outcome (oracle j) = Raise e →
               done !! j = Some (set_tags item ["Error"])
               ∧ Skipped (title item) ∈ evs))
  ∧ (∃ final evs,
      Tag.final_data papers existing_output overwrite oracle = Ok (final, evs)).
Proof.
  intros items.
  destruct (classify_executor_map_spec overwrite (length items) oracle items 0
              (Classify.initial data labeled_data))
    as (st & Hrun & Hcount & _ & _ & _ & Hitems).
  { apply items_to_process_NoDup. }
  { intros r [item [_ Hitem]]%items_to_process_valid. by exists item. }
  split; [|split; [|split]].
  - exists st. split; [done|]. split; [done|]. intros j r Hj.
    destruct (items_to_process_valid data labeled_data overwrite r)
      as (item & Hdata & Hstore); [by eapply list_elem_of_lookup_2|].
    destruct (Hitems j r item Hj Hstore) as [Hobj Hskip].
    cbn [Nat.add] in Hobj, Hskip. exists item. split; [done|]. split; [done|].
    intros Hasks e He. split; [|by eapply Hskip].
    rewrite Hobj. unfold classified. by rewrite Hasks, He.
  - unfold Classify.annotate. fold items. destruct items; [by eexists _, _|].
    rewrite Hrun. by eexists _, _.
  - destruct (tag_executor_map_spec oracle papers 0) as (done & evs & Hmap & Hlen & Hdone).
    exists done, evs. split; [done|]. split; [done|]. intros j item Hj.
    destruct (Hdone j item Hj) as [Hj' Hskip].
    cbn [Nat.add] in Hj', Hskip. split; [done|].
    intros e He. split; [|by eapply Hskip].
    rewrite Hj'. unfold tagged. simpl. by rewrite He.
  - unfold Tag.final_data.
    destruct (if overwrite then papers else _) as [|item todo]; [by eexists _, _|].
    destruct (tag_executor_map_spec oracle (item :: todo) 0) as (done & evs & -> & _).
    by eexists _, _.
Qed.

(** C7 as stated fails for the classifier: under [--overwrite] a record
    that carries a label and whose calls all fail still carries it. *)
Lemma failed_record_keeps_old_label :
  ¬ (∀ (overwrite : bool) (call : nat → reply) (item : paper)
       (st' : Classify.state) (e : exn),
       Classify.process_wrapper overwrite 1 call
         {| Classify.objs := [item]; Classify.processed_count := 0;
            Classify.log := [] |} 0 = Ok st' →
       asks_model overwrite item = true →
       outcome call = Raise e →
       ∃ item', Classify.objs st' !! 0 = Some item' ∧ ai_for_hw item' = None).
Proof.
  intros Hall.
  destruct (Hall true (λ _, ApiError)
              (set_ai_for_hw (sample "X" "2024-01-01T00:00:00Z") true)
              _ OpenAIError eq_refl eq_refl eq_refl) as (item' & Hitem' & Hnone).
  vm_compute in Hitem'. injection Hitem' as <-. discriminate Hnone.
Qed.

(** ** The tags of a tagged collection *)

Lemma parse_tags_well_formed result_str :
  Tag.parse_tags result_str ≠ []
  ∧ NoDup (Tag.parse_tags result_str)
  ∧ (∀ t, t ∈ Tag.parse_tags result_str → t ∈ Tag.VALID_TAGS).
Proof.
  rewrite parse_tags_spec.
  set (hits := fragment_hits _).
  pose proof (first_seen_NoDup [] hits) as Hnodup.
  pose proof (first_seen_elem [] hits) as Helem.
  destruct (first_seen [] hits) as [|t found].
  - split; [done|]. split; [apply NoDup_singleton|].
    intros t ->%list_elem_of_singleton. unfold Tag.VALID_TAGS.
    repeat first [by left | right].
  - split; [done|]. split; [done|].
    intros t' [Ht' _]%Helem. by apply fragment_hits_elem in Ht' as [? _].
Qed.

Lemma tagged_well_tagged call item : well_tagged (tagged call item).
Proof.
  unfold tagged, well_tagged. intros ts Hts.
  destruct (outcome call) as [content|e]; simpl in Hts; simplify_eq.
  - destruct (parse_tags_well_formed (strip content)) as (Hne & Hnodup & Hvalid).
    split; [done|]. split; [done|]. split; [|by right].
    apply submseteq_length, NoDup_submseteq; done.
  - split; [done|]. split; [apply NoDup_singleton|]. split; [simpl; lia|by left].
Qed.

(** C10, as the code has it.  A record tagged in the run carries a list
    of tags that is not empty, has no repetition and is either
    [["Error"]], the mark of a failed call, or made of entries of the
    nine-entry vocabulary, of which it may then hold up to nine.  The
    records taken over from the existing output file are saved as they
    were read: when their tags have this shape, so have the tags of every
    record of the saved collection. *)
Theorem tagged_output_tags_shape (all_papers : list paper)
  (existing_output : option (list paper)) (overwrite : bool)
  (oracle : nat → nat → reply) :
  (∀ data item, existing_output = Some data → item ∈ data → well_tagged item) →
  ∃ final evs,
    Tag.final_data all_papers existing_output overwrite oracle = Ok (final, evs)
    ∧ (∀ item, item ∈ final → well_tagged item)
    ∧ length Tag.VALID_TAGS = 9.
Proof.
  intros Hexisting. unfold Tag.final_data.
  set (existing_papers := match overwrite, existing_output with
                          | false, Some data => data
                          | _, _ => []
                          end).
  assert (∀ item, item ∈ existing_papers → well_tagged item) as Hold.
  { intros item. unfold existing_papers.
    destruct overwrite, existing_output as [data|];
      try (intros H; by apply elem_of_nil in H).
    by apply Hexisting. }
  destruct (if overwrite then all_papers else _) as [|item todo].
  - eexists _, _. split; [done|]. split; [|done].
    intros item Hitem. apply Hold. by rewrite <- (sort_published_perm existing_papers).
  - destruct (tag_executor_map_spec oracle (item :: todo) 0)
      as (done & evs & -> & Hlen & Hdone).
    eexists _, _. split; [done|]. split; [|done].
    intros item' Hitem'. rewrite (sort_published_perm _) in Hitem'.
    apply elem_of_app in Hitem' as [Hitem'|Hitem']; [by apply Hold|].
    apply list_elem_of_lookup in Hitem' as [j Hj].
    destruct (lookup_lt_is_Some_2 (item :: todo) j) as [src Hsrc].
    { rewrite <- Hlen. by eapply lookup_lt_Some. }
    destruct (Hdone j src Hsrc) as [Hj' _]. rewrite Hj in Hj'.
    injection Hj' as ->. apply tagged_well_tagged.
Qed.

Lemma tagged_output_tags_shape_witness :
  let existing := [set_tags (sample "X" "2024-01-01T00:00:00Z") ["Testing"]] in
  let papers := [sample "Y" "2024-03-01T00:00:00Z"; sample "Z" "2024-02-01T00:00:00Z"] in
  let oracle := λ i _ : nat, if Nat.eqb i 0 then ApiError else Answer "Security, testing" in
  (∀ data item, Some existing = Some data → item ∈ data → well_tagged item)
  ∧ ∃ final evs,
      Tag.final_data papers (Some existing) false oracle = Ok (final, evs)
      ∧ (∀ item, item ∈ final → well_tagged item)
      ∧ length Tag.VALID_TAGS = 9.
Proof.
  intros existing papers oracle.
  assert (∀ data item, Some existing = Some data → item ∈ data → well_tagged item)
    as Hexisting.
  { intros data item [= <-] ->%list_elem_of_singleton ts [= <-].
    split; [done|]. split; [apply NoDup_singleton|]. split; [simpl; lia|].
    right. intros t ->%list_elem_of_singleton. unfold Tag.VALID_TAGS.
    repeat first [by left | right]. }
  split; [exact Hexisting|].
  exact (tagged_output_tags_shape papers (Some existing) false oracle Hexisting).
Defined.

(** C10 as stated fails twice: a record whose calls fail carries the tag
    [Error], which the vocabulary does not hold; and an answer naming
    four entries of the vocabulary gives four tags. *)
Lemma tags_outside_vocabulary_or_more_than_three :
  ¬ (∀ (all_papers : list paper) (existing_output : option (list paper))
       (overwrite : bool) (oracle : nat → nat → reply) final evs,
       Tag.final_data all_papers existing_output overwrite oracle = Ok (final, evs) →
       ∀ item, item ∈ final → one_to_three_valid_tags item)
  ∧ Tag.final_data [sample "X" "2024-01-01T00:00:00Z"] None false (λ _ _, ApiError)
    = Ok ([set_tags (sample "X" "2024-01-01T00:00:00Z") ["Error"]],
          [Retrying 5; Retrying 10; Skipped "T-X"])
  ∧ Tag.parse_tags "Verification, Synthesis, P&R, Security"
    = ["Verification"; "Synthesis"; "P&R"; "Security"].
Proof.
  split; [|split; reflexivity].
  intros Hall.
  destruct (Hall [sample "X" "2024-01-01T00:00:00Z"] None false (λ _ _, ApiError)
              _ _ eq_refl _ (list_elem_of_here _ _) ["Error"] eq_refl)
    as (_ & _ & _ & Hvalid).
  specialize (Hvalid "Error" (list_elem_of_here _ _)).
  unfold Tag.VALID_TAGS in Hvalid.
  repeat (apply elem_of_cons in Hvalid as [Hvalid|Hvalid]; [discriminate Hvalid|]).
  by apply elem_of_nil in Hvalid.
Qed.

(** ** Urls in the saved collections *)

Lemma harvested_urls_unique streams : NoDup (map url (Harvest.harvested streams)).
Proof.
  unfold Harvest.harvested. rewrite accumulate_keep_first. simpl.
  rewrite (Permutation_map url (sort_published_perm _)). apply keep_first_NoDup.
Qed.

Lemma merged_urls_unique H P :
  NoDup (map url H) → NoDup (map url P) →
  NoDup (map url (Harvest.merge H P (Harvest.urls_of P)).1).
Proof.
  intros HH HP. rewrite merge_spec. simpl. rewrite map_app.
  apply NoDup_app. split; [|split; [|done]].
  - unfold new_records. clear HP. induction H as [|x H IH]; simpl; [constructor|].
    apply NoDup_cons in HH as [Hx HH]. destruct (bool_decide _); [|by apply IH].
    simpl. constructor; [|by apply IH].
    intros [r [E Hr]]%list_elem_of_fmap. apply Hx, list_elem_of_fmap.
    exists r. split; [done|]. apply list_elem_of_In, filter_In in Hr as [Hr _].
    by apply list_elem_of_In.
  - intros u [r [-> Hr]]%list_elem_of_fmap Hu.
    unfold new_records in Hr. apply list_elem_of_In, filter_In in Hr as [_ Hr].
    apply bool_decide_eq_true in Hr. apply Hr.
    unfold Harvest.urls_of. by apply elem_of_list_to_set.
Qed.

(** C3, where the code departs from it.  On a first run of the
    classifier (no file to diff against) [final_data] is [data] itself,
    and [final_data.extend(items_to_process)] appends the records just
    classified to the list that already holds them: the saved collection
    has the record of the input twice, under one url. *)
Theorem classifier_first_run_repeats_urls :
  let X := sample "X" "2024-01-01T00:00:00Z" in
  Classify.final_data [X] None false (λ _ _, Answer "true")
  = Ok [set_ai_for_hw X true; set_ai_for_hw X true]
  ∧ ¬ NoDup (map url [set_ai_for_hw X true; set_ai_for_hw X true])
  ∧ (∀ streams, NoDup (map url (Harvest.harvested streams)))
  ∧ (∀ H P, NoDup (map url H) → NoDup (map url P) →
            NoDup (map url (Harvest.merge H P (Harvest.urls_of P)).1)).
Proof.
  intros X. split; [reflexivity|]. split; [|split].
  - simpl. intros [Hx _]%NoDup_cons. apply Hx. by left.
  - apply harvested_urls_unique.
  - apply merged_urls_unique.
Qed.

(** ** The order of the saved collections *)

Lemma filter_sublist (keep : paper → bool) l : sublist (List.filter keep l) l.
Proof.
  induction l as [|x l IH]; simpl; [constructor|].
  destruct (keep x); by constructor.
Qed.

Lemma compare_not_Gt_trans s1 :
  ∀ s2 s3, String.compare s1 s2 ≠ Gt → String.compare s2 s3 ≠ Gt →
           String.compare s1 s3 ≠ Gt.
Proof.
  induction s1 as [|x s1 IH]; intros [|y s2] [|z s3]; cbn [String.compare]; try done.
  unfold Ascii.compare.
  generalize (N_of_ascii x) (N_of_ascii y) (N_of_ascii z). intros nx ny nz.
  destruct (N.compare_spec nx ny), (N.compare_spec ny nz), (N.compare_spec nx nz);
    intros Hxy Hyz; try done; try lia.
  by eapply IH.
Qed.

Lemma leb_trans s1 s2 s3 :
  String.leb s1 s2 = true → String.leb s2 s3 = true → String.leb s1 s3 = true.
Proof.
  unfold String.leb. intros H12 H23.
  pose proof (compare_not_Gt_trans s1 s2 s3) as Htrans.
  destruct (String.compare s1 s2), (String.compare s2 s3), (String.compare s1 s3);
    try done; exfalso; by apply Htrans.
Qed.

Lemma desc_trans a b c : desc a b → desc b c → desc a c.
Proof. unfold desc, published_ge. intros Hab Hbc. by eapply leb_trans. Qed.

Lemma sort_published_strongly_sorted l : StronglySorted desc (sort_published l).
Proof.
  apply Sorted_StronglySorted; [|apply sort_published_sorted].
  intros a b c. apply desc_trans.
Qed.

Lemma new_records_descending H P :
  StronglySorted desc H → StronglySorted desc (new_records H P).
Proof.
  unfold new_records. induction 1 as [|x H HH IH Hx]; simpl; [constructor|].
  destruct (bool_decide _); [|done]. constructor; [done|].
  apply Forall_forall. intros y Hy.
  apply list_elem_of_In, filter_In in Hy as [Hy _].
  rewrite Forall_forall in Hx. apply Hx. by apply list_elem_of_In.
Qed.

(** C4, as the code has it.  Two collections are saved in descending
    order of [published]: the one a full rebuild writes, and the one the
    tagger writes.  The incremental merge does not sort its result: the
    new records come first, in descending order among themselves, and the
    persisted records follow as they were stored.  The classifier never
    sorts, and its filtered collection is the positive records of the
    classified one in the order they have there; it is
    [shuffle_papers.py] that puts the filtered file in descending
    order. *)
Theorem sorted_outputs_are_full_rebuild_and_tagged {J : Json}
  (streams : list (list paper)) (P : list paper) (output : string)
  (fs : gmap string string)
  (all_papers : list paper) (existing_output : option (list paper))
  (overwrite : bool) (oracle : nat → nat → reply) (classified_data : list paper) :
  (Harvest.main Harvest.Mode0 output streams fs
   = (Harvest.save_json output (Harvest.harvested streams), Ok tt)
   ∧ descending (Harvest.harvested streams))
  ∧ (∃ final evs,
       Tag.final_data all_papers existing_output overwrite oracle = Ok (final, evs)
       ∧ descending final)
  ∧ ((Harvest.merge (Harvest.harvested streams) P (Harvest.urls_of P)).1
     = new_records (Harvest.harvested streams) P ++ P
     ∧ descending (new_records (Harvest.harvested streams) P))
  ∧ sublist (Classify.filtered_data classified_data) classified_data
  ∧ descending (Shuffle.sorted_papers (Classify.filtered_data classified_data)).
Proof.
  split; [|split; [|split; [|split]]].
  - split; [done|]. apply sort_published_descending.
  - unfold Tag.final_data.
    destruct (if overwrite then all_papers else _) as [|item todo].
    + eexists _, _. split; [done|]. apply sort_published_descending.
    + destruct (tag_executor_map_spec oracle (item :: todo) 0) as (done & evs & -> & _).
      eexists _, _. split; [done|]. apply sort_published_descending.
  - rewrite merge_spec. split; [done|].
    apply Sorted_descending, StronglySorted_Sorted, new_records_descending,
      sort_published_strongly_sorted.
  - apply filter_sublist.
  - apply sort_published_descending.
Qed.

(** C4 as stated fails for the incremental merge: a new record older than
    the persisted ones is put in front of them. *)
Lemma incremental_merge_not_descending :
  let X := sample "X" "2024-03-01T00:00:00Z" in
  let Y := sample "Y" "2024-01-01T00:00:00Z" in
  (Harvest.merge (Harvest.harvested [[X; Y]]) [X] (Harvest.urls_of [X])).1 = [Y; X]
  ∧ ¬ descending (Harvest.merge (Harvest.harvested [[X; Y]]) [X] (Harvest.urls_of [X])).1.
Proof.
  intros X Y.
  assert ((Harvest.merge (Harvest.harvested [[X; Y]]) [X] (Harvest.urls_of [X])).1
          = [Y; X]) as ->.
  { rewrite merge_spec. reflexivity. }
  split; [done|]. intros Hdesc.
  specialize (Hdesc 0 Y X eq_refl eq_refl). vm_compute in Hdesc. discriminate Hdesc.
Qed.

(** * Further properties of the scripts *)

(** ** [query_model] *)

Lemma query_attempts_three post call :
  let r := query_attempts post call (seq 1 MAX_RETRY) in
  r.1 ≠ Raise RuntimeError
  ∧ (r.2 = [] ∨ r.2 = [Retrying 5] ∨ r.2 = [Retrying 5; Retrying 10])
  ∧ (r.1 = Raise OpenAIError
     ↔ call 1 = ApiError ∧ call 2 = ApiError ∧ call 3 = ApiError)
  ∧ (∀ call', call' 1 = call 1 → call' 2 = call 2 → call' 3 = call 3 →
       query_attempts post call' (seq 1 MAX_RETRY) = r).
Proof.
  intros r. subst r. split; [|split; [|split]].
  - simpl. destruct (call 1); [done| |done]. simpl.
    destruct (call 2); [done| |done]. simpl. by destruct (call 3).
  - simpl. destruct (call 1); [by left| |by left]. simpl.
    destruct (call 2); [by right; left| |by right; left]. simpl.
    destruct (call 3); by right; right.
  - simpl. destruct (call 1); [by split; [|intros (?&?&?)]| |by split; [|intros (?&?&?)]].
    simpl. destruct (call 2); [by split; [|intros (?&?&?)]| |by split; [|intros (?&?&?)]].
    simpl. destruct (call 3); by split; [|intros (?&?&?)].
  - intros call' H1 H2 H3. simpl. by rewrite H1, H2, H3.
Qed.

(** X1. [query_model] of either annotator asks the service at most three
    times: its result depends on the first three replies only, an
    [OpenAIError] leaves it exactly when all three attempts raise one,
    the waits announced are 5 seconds and then 10 seconds, and the
    [RuntimeError] after the loop is never raised. *)
Theorem query_model_three_attempts (call : nat → reply) :
  let c := Classify.query_model call in
  let t := Tag.query_model call in
  (c.1 ≠ Raise RuntimeError ∧ t.1 ≠ Raise RuntimeError)
  ∧ (c.2 = t.2 ∧ (c.2 = [] ∨ c.2 = [Retrying 5] ∨ c.2 = [Retrying 5; Retrying 10]))
  ∧ (c.1 = Raise OpenAIError
     ↔ call 1 = ApiError ∧ call 2 = ApiError ∧ call 3 = ApiError)
  ∧ (t.1 = Raise OpenAIError
     ↔ call 1 = ApiError ∧ call 2 = ApiError ∧ call 3 = ApiError)
  ∧ (∀ call', call' 1 = call 1 → call' 2 = call 2 → call' 3 = call 3 →
       Classify.query_model call' = c ∧ Tag.query_model call' = t).
Proof.
  intros c t. subst c t. unfold Classify.query_model, Tag.query_model.
  destruct (query_attempts_three (λ content, lower (strip content)) call)
    as (Hc1 & Hc2 & Hc3 & Hc4).
  destruct (query_attempts_three strip call) as (Ht1 & Ht2 & Ht3 & Ht4).
  split; [done|]. split; [|split; [done|split; [done|]]].
  - split; [|done]. simpl. destruct (call 1); [done| |done]. simpl.
    destruct (call 2); [done| |done]. simpl. by destruct (call 3).
  - intros call' H1 H2 H3. split; [by apply Hc4|by apply Ht4].
Qed.

(** ** [classify_item] *)

(** X2. A record that [classify_item] has labelled is not sent to the
    model again: called once more without [overwrite], whatever the
    service would answer, it returns the stored label, leaves the record
    as it is and prints nothing. *)
Theorem classify_item_resumes (call call' : nat → reply) (item item' : paper)
  (overwrite label : bool) (evs : list event) :
  Classify.classify_item call item overwrite = (Ok (item', label), evs) →
  ai_for_hw item' = Some label
  ∧ same_but_label item item'
  ∧ Classify.classify_item call' item' false = (Ok (item', label), []).
Proof.
  unfold Classify.classify_item. intros Hrun.
  assert (ai_for_hw item' = Some label ∧ same_but_label item item') as [Hlabel Hsame].
  { destruct (negb overwrite), (ai_for_hw item) as [old|] eqn:Hold;
      try (destruct (Classify.query_model call) as [[result|e] log];
           [|discriminate Hrun]; injection Hrun as <- <- <-; by split);
      injection Hrun as <- <- <-; by split. }
  split; [done|]. split; [done|]. simpl. by rewrite Hlabel.
Qed.

Lemma classify_item_resumes_witness :
  let X := sample "X" "2024-01-01T00:00:00Z" in
  Classify.classify_item (λ _, Answer " True") X false
  = (Ok (set_ai_for_hw X true, true), [])
  ∧ ai_for_hw (set_ai_for_hw X true) = Some true
  ∧ same_but_label X (set_ai_for_hw X true)
  ∧ Classify.classify_item (λ _, Answer "false") (set_ai_for_hw X true) false
    = (Ok (set_ai_for_hw X true, true), []).
Proof.
  intros X.
  assert (Classify.classify_item (λ _, Answer " True") X false
          = (Ok (set_ai_for_hw X true, true), [])) as Hrun by reflexivity.
  split; [exact Hrun|].
  exact (classify_item_resumes (λ _, Answer " True") (λ _, Answer "false")
           X (set_ai_for_hw X true) false true [] Hrun).
Defined.

(** ** The classifier's batch and its diff mode *)

Lemma classified_same overwrite call item :
  same_but_label item (classified overwrite call item).
Proof.
  unfold classified, same_but_label.
  destruct (asks_model overwrite item); [|done]. by destruct (outcome call).
Qed.

Lemma annotate_store data labeled_data overwrite oracle :
  let items := Classify.items_to_process data labeled_data overwrite in
  ∃ st,
    Classify.annotate data labeled_data overwrite oracle
    = Ok (st, Classify.final_data_refs data labeled_data ++ items)
    ∧ length (Classify.objs st) = length (Classify.store data labeled_data)
    ∧ (∀ r, r ∉ items →
         Classify.objs st !! r = Classify.store data labeled_data !! r)
    ∧ (∀ j r item, items !! j = Some r →
         Classify.store data labeled_data !! r = Some item →
         Classify.objs st !! r = Some (classified overwrite (oracle j) item)).
Proof.
  intros items.
  destruct (classify_executor_map_spec overwrite (length items) oracle items 0
              (Classify.initial data labeled_data))
    as (st & Hrun & _ & Hlen & Hframe & _ & Hitems).
  { apply items_to_process_NoDup. }
  { intros r [item [_ Hitem]]%items_to_process_valid. by exists item. }
  unfold Classify.annotate. fold items.
  destruct items as [|r0 items0] eqn:Hitems0.
  - exists (Classify.initial data labeled_data). rewrite app_nil_r.
    split; [done|]. split; [done|]. split; [done|]. intros j r item Hj. done.
  - rewrite Hrun. exists st. split; [done|]. split; [done|]. split; [done|].
    intros j r item Hj Hr. by destruct (Hitems j r item Hj Hr).
Qed.

(** X3. A run of the classifier's batch changes nothing but labels: the
    store has as many records after it as before, each with the title,
    url, abstract, date and tags it had. *)
Theorem classifier_batch_only_labels (data : list paper)
  (labeled_data : option (list paper)) (overwrite : bool)
  (oracle : nat → nat → reply) :
  ∃ st refs,
    Classify.annotate data labeled_data overwrite oracle = Ok (st, refs)
    ∧ Forall2 same_but_label (Classify.store data labeled_data) (Classify.objs st).
Proof.
  destruct (annotate_store data labeled_data overwrite oracle)
    as (st & Hrun & Hlen & Hframe & Hitems).
  eexists st, _. split; [done|].
  apply Forall2_same_length_lookup. split; [done|].
  intros r a b Ha Hb.
  destruct (decide (r ∈ Classify.items_to_process data labeled_data overwrite))
    as [Hr|Hr].
  - apply list_elem_of_lookup in Hr as [j Hj].
    rewrite (Hitems j r a Hj Ha) in Hb. injection Hb as <-. apply classified_same.
  - rewrite Hframe, Ha in Hb by done. by injection Hb as <-.
Qed.

Lemma select_filter keep data :
  ∀ base, Forall2 (λ r item, (base ≤ r)%nat ∧ data !! (r - base) = Some item)
            (Classify.select keep base data) (List.filter keep data).
Proof.
  induction data as [|x data IH]; intros base; simpl; [constructor|].
  assert (Forall2 (λ r item, (base ≤ r)%nat ∧ (x :: data) !! (r - base) = Some item)
            (Classify.select keep (S base) data) (List.filter keep data)) as Htail.
  { eapply Forall2_impl; [apply IH|]. intros r item [Hle Hr]. split; [lia|].
    replace (r - base) with (S (r - S base)) by lia. done. }
  destruct (keep x); [|done]. constructor; [|done].
  split; [lia|]. by rewrite Nat.sub_diag.
Qed.

Lemma omap_lookup_seq {A} (l l2 : list A) :
  ∀ n, (∀ k, (k < length l2)%nat → l !! (n + k) = l2 !! k) →
       omap (λ r, l !! r) (seq n (length l2)) = l2.
Proof.
  induction l2 as [|x l2 IH]; intros n Hl; [done|].
  assert (l !! n = Some x) as Hn.
  { pose proof (Hl 0) as H0. rewrite Nat.add_0_r in H0. apply H0. simpl. lia. }
  cbn [length seq]. simpl. rewrite Hn. f_equal. apply IH.
  intros k Hk. replace (S n + k) with (n + S k) by lia.
  rewrite Hl by (simpl; lia). done.
Qed.

Lemma omap_lookup_Forall2 {A} (l : list A) rs xs :
  Forall2 (λ r x, l !! r = Some x) rs xs → omap (λ r, l !! r) rs = xs.
Proof.
  induction 1 as [|r x rs xs Hr _ IH]; simpl; [done|].
  rewrite Hr. f_equal. exact IH.
Qed.

Lemma diff_mode_final_data (data labeled : list paper) (overwrite : bool)
  (oracle : nat → nat → reply) :
  Classify.final_data data (Some labeled) overwrite oracle
  = Ok (labeled
        ++ imap (λ j item, classified overwrite (oracle j) item)
             (List.filter
                (λ item, bool_decide (url item ∉ Classify.nonempty_urls labeled))
                data)).
Proof.
  destruct (annotate_store data (Some labeled) overwrite oracle)
    as (st & Hrun & Hlen & Hframe & Hitems).
  unfold Classify.final_data. rewrite Hrun.
  unfold Classify.contents. rewrite omap_app. do 2 f_equal.
  - apply omap_lookup_seq. intros k Hk. rewrite Hframe.
    + simpl. rewrite lookup_app_r by lia. f_equal. lia.
    + intros [Hle (item & Hitem & _)]%select_elem.
      apply lookup_lt_Some in Hitem. lia.
  - apply omap_lookup_Forall2, Forall2_same_length_lookup.
    pose proof (select_filter
                  (λ item, bool_decide (url item ∉ Classify.nonempty_urls labeled))
                  data 0) as Hsel.
    apply Forall2_same_length_lookup in Hsel as [Hsame Hsel]. split.
    + rewrite length_imap. exact Hsame.
    + intros j r x Hj Hx. rewrite list_lookup_imap in Hx.
      destruct (List.filter _ data !! j) as [item|] eqn:Hitem; [|done].
      injection Hx as <-. destruct (Hsel j r item Hj Hitem) as [_ Hr].
      rewrite Nat.sub_0_r in Hr. apply (Hitems j r item Hj).
      simpl. by apply lookup_app_l_Some.
Qed.

(** X4. In diff mode the collection the classifier saves is the baseline
    as it was read, followed by the records of the input whose url the
    baseline lacks, in the order of the input, each as its own calls left
    it.  The url the baseline lacks is judged on its non-empty urls. *)
Theorem diff_mode_appends_new (data labeled : list paper) (overwrite : bool)
  (oracle : nat → nat → reply) :
  Classify.final_data data (Some labeled) overwrite oracle
  = Ok (labeled
        ++ imap (λ j item, classified overwrite (oracle j) item)
             (List.filter
                (λ item, bool_decide (url item ∉ Classify.nonempty_urls labeled))
                data)).
Proof. apply diff_mode_final_data. Qed.

Lemma nonempty_urls_elem data u :
  u ∈ Classify.nonempty_urls data ↔ u ≠ "" ∧ ∃ item, item ∈ data ∧ url item = u.
Proof.
  unfold Classify.nonempty_urls.
  rewrite elem_of_list_to_set, list_elem_of_In, filter_In, <- list_elem_of_In.
  rewrite negb_true_iff, String.eqb_neq, list_elem_of_fmap. split.
  - intros [(item & -> & Hitem) Hne]. split; [done|]. by exists item.
  - intros [Hne (item & Hitem & <-)]. split; [|done]. by exists item.
Qed.

Lemma select_none keep data :
  (∀ item, item ∈ data → keep item = false) →
  ∀ base, Classify.select keep base data = [].
Proof.
  induction data as [|x data IH]; intros Hkeep base; simpl; [done|].
  rewrite (Hkeep x) by by left. apply IH. intros item Hitem. apply Hkeep. by right.
Qed.

Lemma imap_classified_url overwrite oracle l :
  ∀ i, map url (imap (λ j item, classified overwrite (oracle (i + j)) item) l)
       = map url l.
Proof.
  induction l as [|x l IH]; intros i; [done|]. cbn [imap map]. f_equal.
  - by destruct (classified_same overwrite (oracle (i + 0)) x) as (_ & <- & _).
  - rewrite <- (IH (S i)). f_equal. apply imap_ext. intros j y _. simpl.
    by replace (i + S j) with (S (i + j)) by lia.
Qed.

(** X5. After a run in diff mode every record of the input with a
    non-empty url has its url in the saved collection, labelled or not:
    a second run against that collection finds nothing to classify, so a
    record whose calls failed is not tried again. *)
Theorem diff_mode_second_run_finds_nothing (data labeled final : list paper)
  (overwrite overwrite' : bool) (oracle : nat → nat → reply) :
  (∀ item, item ∈ data → url item ≠ "") →
  Classify.final_data data (Some labeled) overwrite oracle = Ok final →
  Classify.items_to_process data (Some final) overwrite' = [].
Proof.
  intros Hurls Hfinal. rewrite diff_mode_final_data in Hfinal.
  injection Hfinal as <-. unfold Classify.items_to_process.
  apply select_none. intros item Hitem. apply bool_decide_eq_false.
  intros Hnot. apply Hnot. apply nonempty_urls_elem.
  split; [by apply Hurls|].
  destruct (decide (url item ∈ Classify.nonempty_urls labeled)) as [Hin|Hout].
  - apply nonempty_urls_elem in Hin as [_ (old & Hold & Hurl)].
    exists old. split; [|done]. apply elem_of_app. by left.
  - assert (url item ∈ map url
              (imap (λ j item, classified overwrite (oracle (0 + j)) item)
                 (List.filter
                    (λ item, bool_decide (url item ∉ Classify.nonempty_urls labeled))
                    data))) as Hnew.
    { rewrite imap_classified_url. apply list_elem_of_fmap. exists item.
      split; [done|]. apply list_elem_of_In, filter_In.
      split; [by apply list_elem_of_In|]. by apply bool_decide_eq_true. }
    apply list_elem_of_fmap in Hnew as (new & Hurl & Hnew).
    exists new. split; [|done]. apply elem_of_app. by right.
Qed.

Lemma diff_mode_second_run_finds_nothing_witness :
  let X := sample "X" "2024-01-01T00:00:00Z" in
  let Y := sample "Y" "2024-02-01T00:00:00Z" in
  (∀ item, item ∈ [X; Y] → url item ≠ "")
  ∧ Classify.final_data [X; Y] (Some [set_ai_for_hw X true]) false (λ _ _, ApiError)
    = Ok [set_ai_for_hw X true; Y]
  ∧ Classify.items_to_process [X; Y] (Some [set_ai_for_hw X true; Y]) true = [].
Proof.
  intros X Y.
  assert (∀ item, item ∈ [X; Y] → url item ≠ "") as Hurls.
  { intros item Hitem.
    apply elem_of_cons in Hitem as [->|Hitem]; [done|].
    apply list_elem_of_singleton in Hitem as ->. done. }
  assert (Classify.final_data [X; Y] (Some [set_ai_for_hw X true]) false (λ _ _, ApiError)
          = Ok [set_ai_for_hw X true; Y]) as Hfinal by reflexivity.
  split; [exact Hurls|]. split; [exact Hfinal|].
  exact (diff_mode_second_run_finds_nothing [X; Y] [set_ai_for_hw X true]
           [set_ai_for_hw X true; Y] false true (λ _ _, ApiError) Hurls Hfinal).
Defined.

(** X6. In diff mode the urls of the saved collection are pairwise
    distinct whenever those of the baseline are, those of the input are,
    and no record of the input has the empty url. *)
Theorem diff_mode_keeps_urls_unique (data labeled final : list paper)
  (overwrite : bool) (oracle : nat → nat → reply) :
  NoDup (map url data) →
  NoDup (map url labeled) →
  (∀ item, item ∈ data → url item ≠ "") →
  Classify.final_data data (Some labeled) overwrite oracle = Ok final →
  NoDup (map url final).
Proof.
  intros Hdata Hlabeled Hurls Hfinal. rewrite diff_mode_final_data in Hfinal.
  injection Hfinal as <-. rewrite map_app.
  rewrite (imap_classified_url overwrite oracle _ 0).
  apply NoDup_app. split; [done|]. split.
  - intros u [old [-> Hold]]%list_elem_of_fmap [item [Hurl Hitem]]%list_elem_of_fmap.
    apply list_elem_of_In, filter_In in Hitem as [Hitem Hkeep].
    apply bool_decide_eq_true in Hkeep. apply Hkeep, nonempty_urls_elem.
    split; [by apply Hurls, list_elem_of_In|]. by exists old.
  - apply (sublist_NoDup _ (map url data)); [done|].
    apply (fmap_sublist url), filter_sublist.
Qed.

Lemma diff_mode_keeps_urls_unique_witness :
  let X := sample "X" "2024-01-01T00:00:00Z" in
  let Y := sample "Y" "2024-02-01T00:00:00Z" in
  NoDup (map url [X; Y])
  ∧ NoDup (map url [set_ai_for_hw X true])
  ∧ (∀ item, item ∈ [X; Y] → url item ≠ "")
  ∧ Classify.final_data [X; Y] (Some [set_ai_for_hw X true]) false
      (λ _ _, Answer "false")
    = Ok [set_ai_for_hw X true; set_ai_for_hw Y false]
  ∧ NoDup (map url [set_ai_for_hw X true; set_ai_for_hw Y false]).
Proof.
  intros X Y.
  assert (NoDup (map url [X; Y])) as Hdata.
  { simpl. apply NoDup_cons. split; [|apply NoDup_singleton].
    intros H%list_elem_of_singleton. discriminate H. }
  assert (NoDup (map url [set_ai_for_hw X true])) as Hlabeled
    by apply NoDup_singleton.
  assert (∀ item, item ∈ [X; Y] → url item ≠ "") as Hurls.
  { intros item Hitem.
    apply elem_of_cons in Hitem as [->|Hitem]; [done|].
    apply list_elem_of_singleton in Hitem as ->. done. }
  assert (Classify.final_data [X; Y] (Some [set_ai_for_hw X true]) false
            (λ _ _, Answer "false")
          = Ok [set_ai_for_hw X true; set_ai_for_hw Y false]) as Hfinal
    by reflexivity.
  split; [exact Hdata|]. split; [exact Hlabeled|]. split; [exact Hurls|].
  split; [exact Hfinal|].
  exact (diff_mode_keeps_urls_unique [X; Y] [set_ai_for_hw X true]
           [set_ai_for_hw X true; set_ai_for_hw Y false] false
           (λ _ _, Answer "false") Hdata Hlabeled Hurls Hfinal).
Defined.

(** ** The final saving step of the classifier *)

Lemma run_faulty_frame p ops :
  Forall (λ op, ¬ touches p op) ops →
  ∀ fault fs, (run_faulty ops fault fs).1 !! p = fs !! p.
Proof.
  induction 1 as [|op ops Hop _ IH]; intros fault fs; simpl; [done|].
  destruct fault as [[|k]|]; [done| |]; by rewrite IH, fs_step_frame.
Qed.

Lemma safe_body_untouched {J : Json} data path p :
  p ≠ path → p ≠ path +:+ ".tmp" →
  Forall (λ op, ¬ touches p op) (Classify.safe_json_write_body data path).
Proof.
  intros Hpath Htmp. unfold Classify.safe_json_write_body.
  constructor; [simpl; congruence|]. apply Forall_app. split.
  - apply Forall_forall. intros op [c [-> _]]%list_elem_of_fmap. simpl. congruence.
  - constructor; [|constructor]. simpl. intros [?|?]; congruence.
Qed.

Lemma safe_json_write_frame {J : Json} data path fault fs p :
  p ≠ path → p ≠ path +:+ ".tmp" →
  (Classify.safe_json_write data path fault fs).1 !! p = fs !! p.
Proof.
  intros Hpath Htmp. unfold Classify.safe_json_write.
  pose proof (run_faulty_frame p _ (safe_body_untouched data path p Hpath Htmp)
                fault fs) as Hframe.
  destruct (run_faulty _ fault fs) as [fs' [|]]; simpl in *; [|done].
  destruct (fs' !! (path +:+ ".tmp")); [|done].
  simpl. by rewrite lookup_delete_ne.
Qed.

Lemma safe_json_write_raises {J : Json} data path k fs :
  k < length (Classify.safe_json_write_body data path) →
  ∃ fs', Classify.safe_json_write data path (Some k) fs = (fs', Raise IOError)
         ∧ fs' !! path = fs !! path.
Proof.
  intros Hk. unfold Classify.safe_json_write. rewrite run_faulty_some by done.
  pose proof (safe_body_prefix_frame data path k fs Hk) as Hpath.
  destruct (run_ops _ fs !! (path +:+ ".tmp")); eexists; (split; [done|]); [|done].
  simpl. by rewrite lookup_delete_ne by apply temp_path_fresh.
Qed.

Lemma safe_json_write_returns {J : Json} data path fs :
  ∃ fs', Classify.safe_json_write data path None fs = (fs', Ok tt)
         ∧ fs' !! path = Some (json_text data).
Proof.
  unfold Classify.safe_json_write. rewrite run_faulty_none.
  eexists. split; [done|]. apply safe_body_complete.
Qed.

(** X7. The final saving step of the classifier, for an output path and
    a filtered path that do not collide.  When the write of the main
    file raises, the script exits with status 1, the main file is as
    before and the filtered file is not touched.  When it succeeds the
    status is 0 and the main file holds the whole collection; the
    filtered file is then rewritten only if some record is positive, and
    a failure of that second write changes neither the status nor the
    main file and leaves the filtered file as it was. *)
Theorem save_results_main_fatal_filtered_best_effort {J : Json}
  (final_data : list paper) (output_path filtered_output_path : string)
  (fault_filtered : option nat) (fs : gmap string string) :
  filtered_output_path ≠ output_path →
  filtered_output_path ≠ output_path +:+ ".tmp" →
  output_path ≠ filtered_output_path +:+ ".tmp" →
  (∀ k, k < length (Classify.safe_json_write_body final_data output_path) →
     let r := Classify.save_results final_data output_path filtered_output_path
                (Some k) fault_filtered fs in
     r.2 = 1
     ∧ r.1 !! output_path = fs !! output_path
     ∧ r.1 !! filtered_output_path = fs !! filtered_output_path)
  ∧ (let r := Classify.save_results final_data output_path filtered_output_path
                None None fs in
     r.2 = 0
     ∧ r.1 !! output_path = Some (json_text final_data)
     ∧ r.1 !! filtered_output_path
       = match Classify.filtered_data final_data with
         | [] => fs !! filtered_output_path
         | filtered => Some (json_text filtered)
         end)
  ∧ (∀ k, k < length (Classify.safe_json_write_body
                        (Classify.filtered_data final_data) filtered_output_path) →
     let r := Classify.save_results final_data output_path filtered_output_path
                None (Some k) fs in
     r.2 = 0
     ∧ r.1 !! output_path = Some (json_text final_data)
     ∧ r.1 !! filtered_output_path = fs !! filtered_output_path).
Proof.
  intros Hne Hne_tmp Hne_tmp'. unfold Classify.save_results.
  fold (Classify.filtered_data final_data).
  split; [|split].
  - intros k Hk.
    pose proof (safe_json_write_frame final_data output_path (Some k) fs
                  filtered_output_path Hne Hne_tmp) as Hframe.
    destruct (safe_json_write_raises final_data output_path k fs Hk)
      as (fs' & Hrun & Hout).
    rewrite Hrun in *. simpl in Hframe |- *. by rewrite Hframe.
  - pose proof (safe_json_write_frame final_data output_path None fs
                  filtered_output_path Hne Hne_tmp) as Hframe.
    destruct (safe_json_write_returns final_data output_path fs)
      as (fs' & Hrun & Hout).
    rewrite Hrun in *. simpl in Hframe.
    destruct (Classify.filtered_data final_data) as [|item filtered] eqn:Hfiltered;
      simpl; [done|].
    destruct (safe_json_write_returns (item :: filtered) filtered_output_path fs')
      as (fs'' & Hrun' & Hfilt).
    pose proof (safe_json_write_frame (item :: filtered) filtered_output_path None fs'
                  output_path (not_eq_sym Hne) Hne_tmp') as Hframe'.
    rewrite Hrun' in *. simpl in *. by rewrite Hframe'.
  - intros k Hk.
    pose proof (safe_json_write_frame final_data output_path None fs
                  filtered_output_path Hne Hne_tmp) as Hframe.
    destruct (safe_json_write_returns final_data output_path fs)
      as (fs' & Hrun & Hout).
    rewrite Hrun in *. simpl in Hframe.
    destruct (Classify.filtered_data final_data) as [|item filtered] eqn:Hfiltered;
      simpl; [done|].
    destruct (safe_json_write_raises (item :: filtered) filtered_output_path k fs' Hk)
      as (fs'' & Hrun' & Hfilt).
    pose proof (safe_json_write_frame (item :: filtered) filtered_output_path
                  (Some k) fs' output_path (not_eq_sym Hne) Hne_tmp') as Hframe'.
    rewrite Hrun' in *. simpl in *. rewrite Hframe', Hfilt. done.
Qed.

Lemma save_results_main_fatal_filtered_best_effort_witness :
  let X := set_ai_for_hw (sample "X" "2024-01-01T00:00:00Z") true in
  let fs : gmap string string := {[ "filter_papers.json" := "A," ]} in
  ("filter_papers.json" ≠ "labeled.json"
   ∧ "filter_papers.json" ≠ "labeled.json" +:+ ".tmp"
   ∧ "labeled.json" ≠ "filter_papers.json" +:+ ".tmp")
  ∧ (let r := Classify.save_results (J:=toy_json) [X] "labeled.json"
                "filter_papers.json" None (Some 1) fs in
     r.2 = 0
     ∧ r.1 !! "labeled.json" = Some (json_text (J:=toy_json) [X])
     ∧ r.1 !! "filter_papers.json" = fs !! "filter_papers.json").
Proof.
  intros X fs. split; [by repeat split|].
  refine (proj2 (proj2 (save_results_main_fatal_filtered_best_effort (J:=toy_json)
            [X] "labeled.json" "filter_papers.json" (Some 1) fs _ _ _)) 1 _);
    [done|done|done|].
  vm_compute. lia.
Defined.

(** ** The default output path of the classifier *)

Lemma replace_absent old new s :
  contains old s = false → replace s old new = s.
Proof.
  unfold replace. induction s as [|c s IH]; [done|].
  cbn [contains replace_from]. intros [Hhere Hlater]%orb_false_iff.
  by rewrite Hhere, IH.
Qed.

Lemma replace_extension stem new :
  contains "." stem = false →
  replace (stem +:+ ".json") ".json" new = stem +:+ new.
Proof.
  unfold replace. induction stem as [|c stem IH]; intros Hdot.
  - simpl. by rewrite append_empty_r.
  - cbn [contains] in Hdot. apply orb_false_iff in Hdot as [Hc Hdot].
    rewrite !append_cons. cbn [replace_from].
    assert (startswith (String c (stem +:+ ".json")) ".json" = false) as ->.
    { cbn [startswith] in Hc |- *. rewrite andb_true_r in Hc. by rewrite Hc. }
    by rewrite IH.
Qed.

(** X8. The output path the classifier takes when [--output] is not
    given.  An input path that ends in [_labeled.json], and one in which
    [.json] does not occur, are their own output path: the input file is
    then overwritten.  An input [stem.json] whose stem has no dot gives
    [stem_labeled.json]. *)
Theorem default_output_path_cases (input stem : string) :
  (endswith input "_labeled.json" = true →
   Classify.default_output_path input = input)
  ∧ (contains ".json" input = false →
     Classify.default_output_path input = input)
  ∧ (contains "." stem = false →
     Classify.default_output_path (stem +:+ ".json")
     = if endswith (stem +:+ ".json") "_labeled.json" then stem +:+ ".json"
       else stem +:+ "_labeled.json")
  ∧ Classify.default_output_path "_data/llm_hw_design_papers.json"
    = "_data/llm_hw_design_papers_labeled.json".
Proof.
  unfold Classify.default_output_path, Classify.DEFAULT_OUTPUT_SUFFIX.
  split; [|split; [|split]].
  - by intros ->.
  - intros Habsent. rewrite replace_absent by done. by destruct (endswith _ _).
  - intros Hdot. by rewrite replace_extension.
  - reflexivity.
Qed.

(** ** The API key *)

Lemma truthy_Some v : truthy_spec v ↔ Classify.truthy v = true.
Proof.
  unfold truthy_spec, Classify.truthy. destruct v as [s|].
  - rewrite negb_true_iff, String.eqb_neq. split.
    + by intros (k & [= ->] & Hk).
    + intros Hs. by exists s.
  - split; [by intros (k & ? & _)|done].
Qed.

Lemma resolve_api_key_file kf :
  ∀ env, Classify.truthy env = false →
  Classify.resolve_api_key env kf
  = usable_key
      match kf with
      | Classify.KeyJson key_data => first_true_member key_data
      | Classify.KeyText text => Some (Classify.KeyString (strip text))
      | Classify.NoKeyFile | Classify.KeyUnreadable => None
      end.
Proof.
  intros env Henv. unfold Classify.resolve_api_key. rewrite Henv.
  assert (∀ v, (if Classify.truthy
                     (if Classify.truthy_value v
                      then match Classify.putenv v with
                           | Some key => Some key
                           | None => env
                           end
                      else env)
                then (if Classify.truthy_value v
                      then match Classify.putenv v with
                           | Some key => Some key
                           | None => env
                           end
                      else env)
                else None)
               = if Classify.truthy_value v then usable_key v else None) as Hval.
  { intros v. destruct (Classify.truthy_value v) eqn:Hv; [|by rewrite Henv].
    destruct v as [[s|truth]|]; try done.
    - cbn [Classify.putenv usable_key]. cbn [Classify.truthy_value] in Hv.
      apply negb_true_iff in Hv. rewrite Hv. cbn [orb].
      destruct (contains Classify.NUL s); [by rewrite Henv|].
      cbn [Classify.truthy]. by rewrite Hv.
    - cbn [Classify.putenv usable_key]. by rewrite Henv. }
  cbv zeta. rewrite Hval. clear Hval.
  destruct kf as [|key_data|text|]; try done.
  - unfold first_true_member, Classify.or_else. cbn [omap list_omap].
    destruct (key_data !! "OPENAI_API_KEY") as [v1|];
      destruct (key_data !! "api_key") as [v2|];
      destruct (key_data !! "key") as [v3|];
      cbn [List.find];
      repeat first
        [ progress (change (Classify.truthy_value None) with false; cbv iota)
        | match goal with
          | |- context [Classify.truthy_value (Some ?v)] =>
              destruct (Classify.truthy_value (Some v)) eqn:?; cbv iota
          end ];
      try done; congruence.
  - cbn [usable_key Classify.truthy_value].
    by destruct (String.eqb (strip text) "").
Qed.

(** X9. How the key of the service is found.  In the classifier a
    non-empty [OPENAI_API_KEY] of the environment wins and the key file
    is not looked at.  Otherwise a JSON key file gives the first of its
    members [OPENAI_API_KEY], [api_key] and [key] that Python takes for
    true, and a key file that is not JSON gives its text stripped of
    white space; what is found becomes the key when it is a string, not
    empty and without NUL character, and in every other case the script
    exits with status 1.  The key is never empty.  The tagger does the
    same when it has a record to tag; with nothing to tag it neither
    looks for a key nor exits there.  A key file that holds a
    no-break space and nothing else gives no key. *)
Theorem resolve_api_key_precedence (env : option string) (kf : Classify.key_file)
  (items_to_process : list paper) :
  (∀ k, Classify.resolve_api_key env kf = Some k → k ≠ "")
  ∧ (truthy_spec env → Classify.resolve_api_key env kf = env)
  ∧ (¬ truthy_spec env →
     Classify.resolve_api_key env kf
     = usable_key
         match kf with
         | Classify.KeyJson key_data => first_true_member key_data
         | Classify.KeyText text => Some (Classify.KeyString (strip text))
         | Classify.NoKeyFile | Classify.KeyUnreadable => None
         end)
  ∧ Tag.resolve_api_key [] env kf = Some env
  ∧ (items_to_process ≠ [] →
     Tag.resolve_api_key items_to_process env kf
     = Some <$> Classify.resolve_api_key env kf)
  ∧ Classify.resolve_api_key None (Classify.KeyText (utf8 0xA0)) = None
  ∧ Classify.resolve_api_key (Some "")
      (Classify.KeyJson {[ "OPENAI_API_KEY" := Classify.KeyOther false;
                           "api_key" := Classify.KeyString "sk-1";
                           "key" := Classify.KeyString "sk-2" ]})
    = Some "sk-1".
Proof.
  split; [|split; [|split; [|split; [|split; [|split]]]]].
  - intros k. unfold Classify.resolve_api_key. cbv zeta.
    match goal with
    | |- (if Classify.truthy ?e then _ else _) = _ → _ => generalize e
    end.
    intros e He. destruct (Classify.truthy e) eqn:Hte; [|done]. subst e.
    simpl in Hte. by apply negb_true_iff, String.eqb_neq in Hte.
  - rewrite truthy_Some. intros Henv. unfold Classify.resolve_api_key.
    cbv zeta. rewrite Henv. cbv iota. by rewrite Henv.
  - rewrite truthy_Some. intros Henv%not_true_is_false.
    by apply resolve_api_key_file.
  - reflexivity.
  - intros Hne. destruct items_to_process as [|item items]; [done|].
    cbn [Tag.resolve_api_key]. by destruct (Classify.resolve_api_key env kf).
  - by vm_compute.
  - by vm_compute.
Qed.

(** ** The tagger's run *)

Lemma tagged_same call item : same_but_tags item (tagged call item).
Proof. unfold tagged, same_but_tags. by destruct (outcome call). Qed.

Lemma tag_executor_map_imap oracle items :
  ∀ i, ∃ evs,
    Tag.executor_map oracle i items
    = Ok (imap (λ j item, tagged (oracle (i + j)) item) items, evs).
Proof.
  induction items as [|item items IH]; intros i; [by exists []|].
  destruct (tag_process_wrapper_cases (oracle i) item) as (evs & Hstep & _).
  destruct (IH (S i)) as (evs' & Hrun).
  cbn [Tag.executor_map imap]. rewrite Hstep, Hrun. eexists. do 3 f_equal.
  - by rewrite Nat.add_0_r.
  - apply imap_ext. intros j y _. simpl. by replace (i + S j) with (S (i + j)) by lia.
Qed.

Lemma tag_final_data_spec all_papers existing_output overwrite oracle :
  ∃ evs,
    Tag.final_data all_papers existing_output overwrite oracle
    = Ok (sort_published
            (tag_existing existing_output overwrite
             ++ imap (λ j item, tagged (oracle j) item)
                  (tag_todo all_papers existing_output overwrite)), evs).
Proof.
  unfold Tag.final_data. fold (tag_existing existing_output overwrite).
  fold (tag_todo all_papers existing_output overwrite).
  destruct (tag_todo all_papers existing_output overwrite) as [|item todo].
  - exists []. simpl. by rewrite app_nil_r.
  - destruct (tag_executor_map_imap oracle (item :: todo) 0) as (evs & ->).
    by exists evs.
Qed.

(** X10. The collection the tagger saves is a rearrangement of the
    records kept from its output file, unchanged, and of the records it
    sent to the model, each differing from its input record in [tags]
    only and carrying tags.  Without [--overwrite] the records sent are
    those of the input whose url the output file lacks; with it the file
    is ignored and every record of the input is sent. *)
Theorem tagger_output_existing_plus_new (all_papers : list paper)
  (existing_output : option (list paper)) (overwrite : bool)
  (oracle : nat → nat → reply) :
  let existing := tag_existing existing_output overwrite in
  let todo := tag_todo all_papers existing_output overwrite in
  ∃ final evs done,
    Tag.final_data all_papers existing_output overwrite oracle = Ok (final, evs)
    ∧ Permutation final (existing ++ done)
    ∧ length final = length existing + length todo
    ∧ Forall2 (λ item item', same_but_tags item item' ∧ is_Some (tags item'))
        todo done
    ∧ (overwrite = true → existing = [] ∧ todo = all_papers).
Proof.
  intros existing todo.
  destruct (tag_final_data_spec all_papers existing_output overwrite oracle)
    as (evs & Hrun).
  fold existing todo in Hrun.
  eexists _, evs, (imap (λ j item, tagged (oracle j) item) todo).
  split; [exact Hrun|]. split; [apply sort_published_perm|]. split; [|split].
  - rewrite (Permutation_length (sort_published_perm _)).
    by rewrite length_app, length_imap.
  - apply Forall2_same_length_lookup. split; [by rewrite length_imap|].
    intros j item item' Hitem Hitem'. rewrite list_lookup_imap, Hitem in Hitem'.
    injection Hitem' as <-. split; [apply tagged_same|].
    unfold tagged. by destruct (outcome (oracle j)).
  - intros ->. by subst existing todo.
Qed.

(** ** Sorting again *)

Lemma sort_published_fixed l : StronglySorted desc l → sort_published l = l.
Proof.
  induction 1 as [|x l Hl IH Hx]; [done|].
  cbn [sort_published foldr]. fold (sort_published l). rewrite IH.
  destruct l as [|y l']; [done|]. simpl.
  apply Forall_cons in Hx as [Hxy _]. unfold desc in Hxy. by rewrite Hxy.
Qed.

(** X11. Sorting by date is idempotent: a list already in descending
    order of [published] comes back as it is, so running
    [shuffle_papers.py] or the tagger's sort a second time changes
    nothing; and sorting never adds or drops a record. *)
Theorem sort_published_idempotent (l : list paper) :
  sort_published (sort_published l) = sort_published l
  ∧ Shuffle.sorted_papers (Shuffle.sorted_papers l) = Shuffle.sorted_papers l
  ∧ Permutation (Shuffle.sorted_papers l) l
  ∧ (descending l → Shuffle.sorted_papers l = l).
Proof.
  assert (sort_published (sort_published l) = sort_published l) as Hidem.
  { apply sort_published_fixed, sort_published_strongly_sorted. }
  split; [done|]. split; [done|]. split; [apply sort_published_perm|].
  intros Hdesc. apply sort_published_fixed, Sorted_StronglySorted.
  { intros a b c. apply desc_trans. }
  clear Hidem. induction l as [|x l IH]; [constructor|].
  constructor.
  - apply IH. intros i a b Ha Hb. by apply (Hdesc (S i) a b).
  - destruct l as [|y l']; constructor. by apply (Hdesc 0 x y).
Qed.

Lemma filter_none (keep : paper → bool) l :
  (∀ item, item ∈ l → keep item = false) → List.filter keep l = [].
Proof.
  induction l as [|x l IH]; intros Hkeep; [done|]. simpl.
  rewrite (Hkeep x) by by left. apply IH. intros item Hitem. apply Hkeep. by right.
Qed.

Lemma tag_nonempty_urls_elem data u :
  u ∈ Tag.nonempty_urls data ↔ u ≠ "" ∧ ∃ item, item ∈ data ∧ url item = u.
Proof. apply nonempty_urls_elem. Qed.

(** X12. A second run of the tagger over the same input, against the
    collection the first run saved, sends nothing to the model and saves
    that collection again as it is: a record tagged [["Error"]] after
    failed calls is not tried again.  The records of the input are taken
    to have non-empty urls. *)
Theorem tagger_second_run_changes_nothing (all_papers : list paper)
  (existing_output : option (list paper)) (overwrite : bool)
  (oracle oracle' : nat → nat → reply) (final : list paper) (evs : list event) :
  (∀ item, item ∈ all_papers → url item ≠ "") →
  Tag.final_data all_papers existing_output overwrite oracle = Ok (final, evs) →
  Tag.final_data all_papers (Some final) false oracle' = Ok (final, []).
Proof.
  intros Hurls Hrun.
  destruct (tag_final_data_spec all_papers existing_output overwrite oracle)
    as (evs0 & Hspec).
  rewrite Hspec in Hrun. injection Hrun as <- _.
  set (existing := tag_existing existing_output overwrite) in *.
  set (todo := tag_todo all_papers existing_output overwrite) in *.
  set (final := sort_published _).
  assert (∀ item, item ∈ all_papers → url item ∈ Tag.nonempty_urls final) as Hcovered.
  { intros item Hitem. apply tag_nonempty_urls_elem. split; [by apply Hurls|].
    assert (∀ x, x ∈ existing ++ imap (λ j item, tagged (oracle j) item) todo →
                 x ∈ final) as Hfinal.
    { intros x Hx. unfold final. by rewrite (sort_published_perm _). }
    assert (item ∈ todo → ∃ x, x ∈ final ∧ url x = url item) as Htodo.
    { intros [j Hj]%list_elem_of_lookup. exists (tagged (oracle j) item). split.
      - apply Hfinal, elem_of_app. right. apply list_elem_of_lookup. exists j.
        by rewrite list_lookup_imap, Hj.
      - by destruct (tagged_same (oracle j) item) as (_ & <- & _). }
    unfold todo, tag_todo in Htodo. fold existing in Htodo.
    destruct overwrite; [by apply Htodo|].
    destruct (decide (url item ∈ Tag.nonempty_urls existing)) as [Hin|Hout].
    - apply tag_nonempty_urls_elem in Hin as [_ (old & Hold & Hurl)].
      exists old. split; [|done]. apply Hfinal, elem_of_app. by left.
    - apply Htodo, list_elem_of_In, filter_In.
      split; [by apply list_elem_of_In|]. by apply bool_decide_eq_true. }
  unfold Tag.final_data.
  assert (List.filter (λ item, bool_decide (url item ∉ Tag.nonempty_urls final))
            all_papers = []) as ->.
  { apply filter_none. intros item Hitem. apply bool_decide_eq_false.
    intros Hx. by apply Hx, Hcovered. }
  do 2 f_equal. apply sort_published_fixed, sort_published_strongly_sorted.
Qed.

Lemma tagger_second_run_changes_nothing_witness :
  let X := sample "X" "2024-01-01T00:00:00Z" in
  let Y := sample "Y" "2024-02-01T00:00:00Z" in
  let final := [set_tags Y ["Testing"]; set_tags X ["Error"]] in
  (∀ item, item ∈ [X; Y] → url item ≠ "")
  ∧ Tag.final_data [X; Y] None false
      (λ i _, if Nat.eqb i 0 then Broken else Answer "testing")
    = Ok (final, [Skipped "T-X"])
  ∧ Tag.final_data [X; Y] (Some final) false (λ _ _, Answer "Security")
    = Ok (final, []).
Proof.
  intros X Y final.
  assert (∀ item, item ∈ [X; Y] → url item ≠ "") as Hurls.
  { intros item Hitem.
    apply elem_of_cons in Hitem as [->|Hitem]; [done|].
    apply list_elem_of_singleton in Hitem as ->. done. }
  assert (Tag.final_data [X; Y] None false
            (λ i _, if Nat.eqb i 0 then Broken else Answer "testing")
          = Ok (final, [Skipped "T-X"])) as Hrun by reflexivity.
  split; [exact Hurls|]. split; [exact Hrun|].
  exact (tagger_second_run_changes_nothing [X; Y] None false _
           (λ _ _, Answer "Security") final [Skipped "T-X"] Hurls Hrun).
Defined.

(** ** The tag parser and the case of the answer *)

Lemma lower_char_facts c :
  lower_char (lower_char c) = lower_char c
  ∧ Ascii.eqb (lower_char c) "," = Ascii.eqb c ",".
Proof. destruct c as [[] [] [] [] [] [] [] []]; by vm_compute. Qed.

Lemma lower_idem s : lower (lower s) = lower s.
Proof.
  induction s as [|c s IH]; [done|]. simpl.
  by rewrite IH, (proj1 (lower_char_facts c)).
Qed.

Lemma split_comma_lower s : split_comma (lower s) = map lower (split_comma s).
Proof.
  induction s as [|c s IH]; [done|]. cbn [lower split_comma].
  rewrite (proj2 (lower_char_facts c)), IH.
  destruct (Ascii.eqb c ","); [done|]. by destruct (split_comma s).
Qed.

Lemma fragment_hits_lower raw_tags :
  fragment_hits (map lower raw_tags) = fragment_hits raw_tags.
Proof.
  unfold fragment_hits. induction raw_tags as [|raw raw_tags IH]; [done|].
  cbn [map flat_map]. rewrite IH. f_equal.
  apply filter_ext. intros v. unfold Tag.matches. by rewrite lower_idem.
Qed.

Lemma parse_tags_lower s : Tag.parse_tags (lower s) = Tag.parse_tags s.
Proof.
  rewrite !parse_tags_spec, split_comma_lower, map_map.
  rewrite (map_ext (λ x, strip (lower x)) (λ x, lower (strip x)))
    by (intros x; apply strip_lower).
  by rewrite <- (map_map strip lower), fragment_hits_lower.
Qed.

(** X13. The tags read from an answer do not depend on the case of its
    letters: two answers that agree once put in lower case give the same
    list of tags. *)
Theorem parse_tags_ignores_case (answer answer' : string) :
  Tag.parse_tags (lower answer) = Tag.parse_tags answer
  ∧ (lower answer = lower answer' →
     Tag.parse_tags answer = Tag.parse_tags answer')
  ∧ Tag.parse_tags "SECURITY, p&r" = ["Security"; "P&R"].
Proof.
  split; [apply parse_tags_lower|]. split; [|reflexivity].
  intros Hsame. by rewrite <- (parse_tags_lower answer), Hsame, parse_tags_lower.
Qed.

(** ** Answers in the format the prompt asks for *)

Lemma split_comma_piece v rest :
  contains "," v = false →
  split_comma (v +:+ String "," rest) = v :: split_comma rest.
Proof.
  induction v as [|c v IH]; intros Hv.
  - done.
  - cbn [contains startswith] in Hv. rewrite andb_true_r in Hv.
    apply orb_false_iff in Hv as [Hc Hv].
    rewrite append_cons. cbn [split_comma]. by rewrite Hc, IH.
Qed.

Lemma split_comma_whole v : contains "," v = false → split_comma v = [v].
Proof.
  induction v as [|c v IH]; intros Hv; [done|].
  cbn [contains startswith] in Hv. rewrite andb_true_r in Hv.
  apply orb_false_iff in Hv as [Hc Hv].
  cbn [split_comma]. by rewrite Hc, IH.
Qed.

Lemma split_comma_join v vs :
  Forall (λ w, contains "," w = false) (v :: vs) →
  split_comma (join_comma_space (v :: vs)) = v :: map (λ w, " " +:+ w) vs.
Proof.
  revert v. induction vs as [|w vs IH]; intros v Hall.
  - apply split_comma_whole. by apply Forall_cons in Hall as [? _].
  - apply Forall_cons in Hall as [Hv Hall].
    change (join_comma_space (v :: w :: vs))
      with (v +:+ String "," (" " +:+ join_comma_space (w :: vs))).
    rewrite split_comma_piece by done. f_equal.
    change (" " +:+ join_comma_space (w :: vs))
      with (String " " (join_comma_space (w :: vs))).
    cbn [split_comma]. change (Ascii.eqb " " ",") with false. cbv iota.
    by rewrite IH.
Qed.

Lemma valid_tags_facts :
  Forall (λ v, contains "," v = false
               ∧ strip v = v
               ∧ strip (" " +:+ v) = v
               ∧ List.filter (Tag.matches v) Tag.VALID_TAGS = [v])
    Tag.VALID_TAGS.
Proof.
  unfold Tag.VALID_TAGS.
  repeat (constructor; [by vm_compute|]). constructor.
Qed.

Lemma first_seen_NoDup_id l :
  NoDup l → ∀ seen, (∀ x, x ∈ l → x ∉ seen) → first_seen seen l = l.
Proof.
  induction 1 as [|x l Hx Hl IH]; intros seen Hseen; [done|]. simpl.
  rewrite decide_False by (apply Hseen; by left). f_equal. apply IH.
  intros y Hy [Hin|Hin%list_elem_of_singleton]%elem_of_app.
  - apply (Hseen y); [by right|done].
  - by subst y.
Qed.

(** X14. An answer in the format the prompt asks for is read back as
    written: for one or more distinct entries of the vocabulary, joined
    by a comma and a space, the tags stored are those entries in that
    order; the same holds when the answer comes in lower case. *)
Theorem parse_tags_reads_back_joined_tags (vs : list string) :
  vs ≠ [] →
  NoDup vs →
  (∀ v, v ∈ vs → v ∈ Tag.VALID_TAGS) →
  Tag.parse_tags (join_comma_space vs) = vs
  ∧ Tag.parse_tags (lower (join_comma_space vs)) = vs.
Proof.
  intros Hne Hnodup Hvalid.
  assert (Tag.parse_tags (join_comma_space vs) = vs) as Hparse;
    [|split; [done|by rewrite parse_tags_lower]].
  pose proof valid_tags_facts as Hfacts. rewrite Forall_forall in Hfacts.
  assert (∀ v, v ∈ vs → contains "," v = false ∧ strip v = v
                         ∧ strip (" " +:+ v) = v
                         ∧ List.filter (Tag.matches v) Tag.VALID_TAGS = [v])
    as Hvs.
  { intros v Hv. by apply Hfacts, Hvalid. }
  destruct vs as [|v vs]; [done|].
  assert (map strip (split_comma (join_comma_space (v :: vs))) = v :: vs) as Hraw.
  { rewrite split_comma_join.
    - cbn [map]. f_equal; [apply Hvs; by left|].
      rewrite map_map. rewrite <- (map_id vs) at 2.
      apply map_ext_in. intros w Hw%list_elem_of_In. apply Hvs. by right.
    - apply Forall_forall. intros w Hw. by apply Hvs. }
  rewrite parse_tags_spec, Hraw.
  assert (fragment_hits (v :: vs) = v :: vs) as ->.
  { unfold fragment_hits. clear -Hvs. induction (v :: vs) as [|w l IH]; [done|].
    cbn [flat_map]. rewrite (proj2 (proj2 (proj2 (Hvs w (list_elem_of_here _ _))))).
    simpl. f_equal. apply IH. intros x Hx. apply Hvs. by right. }
  rewrite first_seen_NoDup_id; [done|done|].
  intros x _. apply not_elem_of_nil.
Qed.

Lemma parse_tags_reads_back_joined_tags_witness :
  let vs := ["Code Generation"; "Verification"; "P&R"] in
  vs ≠ [] ∧ NoDup vs ∧ (∀ v, v ∈ vs → v ∈ Tag.VALID_TAGS)
  ∧ join_comma_space vs = "Code Generation, Verification, P&R"
  ∧ Tag.parse_tags (join_comma_space vs) = vs
  ∧ Tag.parse_tags (lower (join_comma_space vs)) = vs.
Proof.
  intros vs.
  assert (vs ≠ []) as Hne by done.
  assert (NoDup vs) as Hnodup.
  { apply (bool_decide_unpack _). by vm_compute. }
  assert (∀ v, v ∈ vs → v ∈ Tag.VALID_TAGS) as Hvalid.
  { intros v Hv. unfold vs in Hv. unfold Tag.VALID_TAGS.
    repeat (apply elem_of_cons in Hv as [->|Hv];
            [repeat first [by left | right]|]).
    by apply elem_of_nil in Hv. }
  split; [exact Hne|]. split; [exact Hnodup|]. split; [exact Hvalid|].
  split; [reflexivity|].
  exact (parse_tags_reads_back_joined_tags vs Hne Hnodup Hvalid).
Defined.

(** ** Files written in place *)

Lemma run_in_place path chunks fs :
  run_ops (OpenW path :: map (WriteChunk path) chunks) fs !! path
  = Some (foldr String.append "" chunks)
  ∧ ∀ p, p ≠ path →
      run_ops (OpenW path :: map (WriteChunk path) chunks) fs !! p = fs !! p.
Proof.
  split.
  - change (run_ops (?op :: ?ops) fs) with (run_ops ops (fs_step fs op)).
    rewrite (run_write_chunks _ _ ""); [done|]. simpl. by rewrite lookup_insert_eq.
  - intros p Hp. apply run_ops_frame. constructor; [simpl; congruence|].
    apply Forall_forall. intros op [c [-> _]]%list_elem_of_fmap. simpl. congruence.
Qed.

(** X15. [shuffle_and_sort_papers] writes nothing when its file is
    missing or is not JSON.  Otherwise the file ends up holding the
    records it held, sorted by date, and no other file is touched; if the
    text written reads back as the list written, a second run leaves the
    content of the file as it is. *)
Theorem shuffle_and_sort_papers_cases {J : Json} (data_file_path : string)
  (fs : gmap string string) :
  (fs !! data_file_path = None →
   Shuffle.shuffle_and_sort_papers data_file_path fs = [])
  ∧ (∀ text, fs !! data_file_path = Some text → json_load text = None →
       Shuffle.shuffle_and_sort_papers data_file_path fs = [])
  ∧ (∀ text papers,
       fs !! data_file_path = Some text → json_load text = Some papers →
       let fs' := run_ops (Shuffle.shuffle_and_sort_papers data_file_path fs) fs in
       fs' !! data_file_path = Some (json_text (Shuffle.sorted_papers papers))
       ∧ (∀ p, p ≠ data_file_path → fs' !! p = fs !! p)
       ∧ (json_load (json_text (Shuffle.sorted_papers papers))
          = Some (Shuffle.sorted_papers papers) →
          run_ops (Shuffle.shuffle_and_sort_papers data_file_path fs') fs'
            !! data_file_path
          = fs' !! data_file_path)).
Proof.
  unfold Shuffle.shuffle_and_sort_papers. split; [|split].
  - by intros ->.
  - by intros text -> ->.
  - intros text papers Htext Hload. rewrite Htext, Hload. cbv zeta.
    unfold Shuffle.save.
    destruct (run_in_place data_file_path
                (json_dump (Shuffle.sorted_papers papers)) fs) as [Hfile Hframe].
    fold (json_text (Shuffle.sorted_papers papers)) in Hfile.
    split; [done|]. split; [done|]. intros Hround.
    rewrite Hfile, Hround.
    destruct (run_in_place data_file_path
                (json_dump (Shuffle.sorted_papers (Shuffle.sorted_papers papers)))
                (run_ops (OpenW data_file_path
                          :: map (WriteChunk data_file_path)
                               (json_dump (Shuffle.sorted_papers papers))) fs))
      as [Hfile' _].
    rewrite Hfile'. unfold Shuffle.sorted_papers.
    rewrite (sort_published_fixed (sort_published papers))
      by apply sort_published_strongly_sorted.
    done.
Qed.

(** ** The harvester's runs *)

Lemma new_records_nil H : new_records H [] = H.
Proof.
  unfold new_records, Harvest.urls_of. simpl.
  induction H as [|x H IH]; [done|]. simpl.
  rewrite bool_decide_eq_true_2 by set_solver. by rewrite IH.
Qed.

Lemma new_records_covered H P :
  (∀ r, r ∈ H → url r ∈ Harvest.urls_of P) → new_records H P = [].
Proof.
  intros Hcov. apply filter_none. intros r Hr.
  apply bool_decide_eq_false. intros Hnot. by apply Hnot, Hcov.
Qed.

Lemma harvest_save_result {J : Json} output data fs :
  run_ops (Harvest.save_json output data) fs !! output = Some (json_text data)
  ∧ ∀ p, p ≠ output → run_ops (Harvest.save_json output data) fs !! p = fs !! p.
Proof. apply run_in_place. Qed.

Lemma load_existing_saved {J : Json} output data fs :
  json_load (json_text data) = Some data →
  Harvest.load_existing (run_ops (Harvest.save_json output data) fs) output
  = Ok (data, Harvest.urls_of data).
Proof.
  intros Hround. unfold Harvest.load_existing.
  by rewrite (proj1 (harvest_save_result output data fs)), Hround.
Qed.

(** X16. A full rebuild (mode 0) leaves in the output file the text of
    the harvested list, whatever the file held before, and touches no
    other file. *)
Theorem full_rebuild_overwrites {J : Json} (output : string)
  (streams : list (list paper)) (fs : gmap string string) :
  let run := Harvest.main Harvest.Mode0 output streams fs in
  run.2 = Ok tt
  ∧ run_ops run.1 fs !! output = Some (json_text (Harvest.harvested streams))
  ∧ (∀ p, p ≠ output → run_ops run.1 fs !! p = fs !! p).
Proof.
  simpl. split; [done|]. apply harvest_save_result.
Qed.

(** X17. A run of the harvester followed by an incremental run over the
    same results writes nothing the second time, be the first run a full
    rebuild or an incremental one, provided the lists saved read back as
    they were written. *)
Theorem harvest_rerun_writes_nothing {J : Json} (output : string)
  (streams : list (list paper)) (fs : gmap string string)
  (P : list paper) (urls : gset string) :
  let H := Harvest.harvested streams in
  Harvest.load_existing fs output = Ok (P, urls) →
  json_load (json_text H) = Some H →
  json_load (json_text (new_records H P ++ P)) = Some (new_records H P ++ P) →
  (∀ m, Harvest.main Harvest.Mode1 output streams
          (run_ops (Harvest.main m output streams fs).1 fs) = ([], Ok tt)).
Proof.
  intros H Hload HroundH Hround [|].
  - change (Harvest.main Harvest.Mode0 output streams fs).1
      with (Harvest.save_json output H).
    rewrite (main_incremental _ _ _ _ _ (load_existing_saved output H fs HroundH)).
    fold H. rewrite new_records_covered; [done|].
    intros r Hr. unfold Harvest.urls_of.
    apply elem_of_list_to_set, list_elem_of_fmap. by exists r.
  - rewrite (main_incremental _ _ _ _ _ Hload). fold H. cbn [fst].
    destruct (new_records H P) as [|r new] eqn:Hnew.
    + change (run_ops [] fs) with fs.
      rewrite (main_incremental _ _ _ _ _ Hload). fold H. by rewrite Hnew.
    + rewrite (main_incremental _ _ _ _ _
                 (load_existing_saved output _ fs Hround)).
      fold H. rewrite new_records_covered; [done|].
      intros x Hx. unfold Harvest.urls_of.
      apply elem_of_list_to_set, list_elem_of_fmap.
      destruct (decide (url x ∈ Harvest.urls_of P)) as [Hin|Hout].
      * unfold Harvest.urls_of in Hin.
        apply elem_of_list_to_set, list_elem_of_fmap in Hin as (p & Hurl & Hp).
        exists p. split; [done|]. apply elem_of_app. by right.
      * exists x. split; [done|]. apply elem_of_app. left. rewrite <- Hnew.
        apply list_elem_of_In, filter_In. split; [by apply list_elem_of_In|].
        by apply bool_decide_eq_true.
Qed.

Lemma harvest_rerun_writes_nothing_witness :
  let X := sample "X" "2024-01-01T00:00:00Z" in
  let Y := sample "Y" "2024-01-01T00:00:00Z" in
  let fs : gmap string string := {[ "papers.json" := "X," ]} in
  let H := Harvest.harvested [[X; Y]] in
  Harvest.load_existing (J:=toy_json) fs "papers.json" = Ok ([X], {[ "X" ]})
  ∧ json_load (Json:=toy_json) (json_text (J:=toy_json) H) = Some H
  ∧ json_load (Json:=toy_json) (json_text (J:=toy_json) (new_records H [X] ++ [X]))
    = Some (new_records H [X] ++ [X])
  ∧ (Harvest.main (J:=toy_json) Harvest.Mode1 "papers.json" [[X; Y]] fs).1
    = Harvest.save_json (J:=toy_json) "papers.json" [Y; X]
  ∧ (∀ m, Harvest.main (J:=toy_json) Harvest.Mode1 "papers.json" [[X; Y]]
            (run_ops (Harvest.main (J:=toy_json) m "papers.json" [[X; Y]] fs).1 fs)
          = ([], Ok tt)).
Proof.
  intros X Y fs H.
  assert (Harvest.load_existing (J:=toy_json) fs "papers.json" = Ok ([X], {[ "X" ]}))
    as Hload by (vm_compute; reflexivity).
  assert (json_load (Json:=toy_json) (json_text (J:=toy_json) H) = Some H)
    as HroundH by reflexivity.
  assert (json_load (Json:=toy_json)
            (json_text (J:=toy_json) (new_records H [X] ++ [X]))
          = Some (new_records H [X] ++ [X])) as Hround by reflexivity.
  split; [exact Hload|]. split; [exact HroundH|]. split; [exact Hround|].
  split.
  - rewrite (main_incremental (J:=toy_json) _ _ _ _ _ Hload). reflexivity.
  - exact (harvest_rerun_writes_nothing (J:=toy_json) "papers.json" [[X; Y]] fs
             [X] {[ "X" ]} Hload HroundH Hround).
Defined.

(** X18. The first incremental run, when the output file does not exist
    yet, takes the persisted list for empty: it writes what a full
    rebuild would write, except that with nothing harvested it does not
    create the file. *)
Theorem incremental_without_file {J : Json} (output : string)
  (streams : list (list paper)) (fs : gmap string string) :
  fs !! output = None →
  Harvest.load_existing fs output = Ok ([], ∅)
  ∧ Harvest.main Harvest.Mode1 output streams fs
    = (match Harvest.harvested streams with
       | [] => []
       | _ => (Harvest.main Harvest.Mode0 output streams fs).1
       end, Ok tt)
  ∧ (Harvest.harvested streams = [] →
     run_ops (Harvest.main Harvest.Mode1 output streams fs).1 fs !! output = None
     ∧ run_ops (Harvest.main Harvest.Mode0 output streams fs).1 fs !! output
       = Some (json_text [])).
Proof.
  intros Hmissing.
  assert (Harvest.load_existing fs output = Ok ([], ∅)) as Hload.
  { unfold Harvest.load_existing. by rewrite Hmissing. }
  split; [done|]. rewrite (main_incremental _ _ _ _ _ Hload).
  rewrite new_records_nil, app_nil_r. split.
  - reflexivity.
  - intros Hnone. rewrite Hnone. split; [done|].
    change (Harvest.main Harvest.Mode0 output streams fs).1
      with (Harvest.save_json output (Harvest.harvested streams)).
    rewrite Hnone. apply harvest_save_result.
Qed.

Lemma incremental_without_file_witness :
  let fs : gmap string string := ∅ in
  let X := sample "X" "2024-01-01T00:00:00Z" in
  fs !! "papers.json" = None
  ∧ Harvest.main (J:=toy_json) Harvest.Mode1 "papers.json" [[X]] fs
    = (Harvest.save_json (J:=toy_json) "papers.json" [X], Ok tt).
Proof.
  intros fs X.
  assert (fs !! "papers.json" = None) as Hmissing by reflexivity.
  split; [exact Hmissing|].
  exact (proj1 (proj2 (incremental_without_file (J:=toy_json) "papers.json"
                         [[X]] fs Hmissing))).
Defined.

Lemma keep_first_urls seen l :
  Harvest.urls_of (keep_first seen l) = Harvest.urls_of l ∖ seen.
Proof.
  revert seen. unfold Harvest.urls_of.
  induction l as [|x l IH]; intros seen; simpl.
  - set_solver.
  - destruct (decide (url x ∈ seen)) as [Hx|Hx].
    + rewrite IH. set_solver.
    + simpl. rewrite IH. apply set_eq. intros u.
      destruct (decide (u = url x)); set_solver.
Qed.

Lemma urls_of_perm l l' :
  Permutation l l' → Harvest.urls_of l = Harvest.urls_of l'.
Proof.
  intros Hperm. unfold Harvest.urls_of. apply set_eq. intros u.
  rewrite !elem_of_list_to_set, !list_elem_of_fmap.
  split; intros (r & -> & Hr); exists r; (split; [done|]).
  - by rewrite <- Hperm.
  - by rewrite Hperm.
Qed.

Lemma harvested_urls streams :
  Harvest.urls_of (Harvest.harvested streams) = Harvest.urls_of (concat streams)
  ∧ length (Harvest.harvested streams) = size (Harvest.urls_of (concat streams)).
Proof.
  unfold Harvest.harvested. rewrite accumulate_keep_first. cbn [fst]. split.
  - rewrite (urls_of_perm _ _ (sort_published_perm _)), keep_first_urls.
    set_solver.
  - rewrite (Permutation_length (sort_published_perm _)), keep_first_length.
    f_equal. set_solver.
Qed.

(** X19. Removing repeated urls loses no url: the urls of the harvested
    list are exactly the urls the queries delivered, so they do not
    depend on the order in which the queries are run, and neither does
    the number of records kept. *)
Theorem harvested_urls_are_all_urls (streams streams' : list (list paper)) :
  Harvest.urls_of (Harvest.harvested streams) = Harvest.urls_of (concat streams)
  ∧ (Permutation streams streams' →
     Harvest.urls_of (Harvest.harvested streams')
     = Harvest.urls_of (Harvest.harvested streams)
     ∧ length (Harvest.harvested streams') = length (Harvest.harvested streams)).
Proof.
  split; [apply harvested_urls|]. intros Hperm.
  assert (Harvest.urls_of (concat streams') = Harvest.urls_of (concat streams))
    as Hsame.
  { apply urls_of_perm. by rewrite Hperm. }
  split.
  - by rewrite (proj1 (harvested_urls streams')), (proj1 (harvested_urls streams)).
  - by rewrite (proj2 (harvested_urls streams')), (proj2 (harvested_urls streams)),
      Hsame.
Qed.

(** ** [fetch_papers] *)

Lemma fetch_loop_spec results :
  ∀ count, ∃ messages,
    Fetch.fetch_loop count results
    = (map Fetch.to_item results, messages, count + length results).
Proof.
  induction results as [|result results IH]; intros count.
  - exists []. simpl. by rewrite Nat.add_0_r.
  - destruct (IH (S count)) as (messages & Hloop).
    cbn [Fetch.fetch_loop]. rewrite Hloop. eexists. cbn [map length].
    by replace (count + S (length results)) with (S count + length results) by lia.
Qed.

Lemma replace_newline_free s :
  contains Fetch.newline (replace s Fetch.newline " ") = false.
Proof.
  unfold replace, Fetch.newline. induction s as [|c s IH]; [done|].
  cbn [replace_from startswith String.length Nat.sub].
  rewrite andb_true_r. destruct (Ascii.eqb c _) eqn:Hc.
  - change (" " +:+ ?r) with (String " " r). cbn [contains startswith].
    by rewrite IH.
  - cbn [contains startswith]. by rewrite Hc, IH.
Qed.

(** X20. [fetch_papers] yields one record for every result the client
    delivered, in order, however the iteration ends: on an empty page or
    on any other error the records yielded so far stay.  Every record
    comes without annotations, its url is the entry id of the result and
    its abstract has no line break.  The last line printed gives the
    number of records yielded, except after an error. *)
Theorem fetch_papers_yields_every_result (results : list arxiv_result)
  (e : Fetch.ending) :
  let out := Fetch.fetch_papers results e in
  out.1 = map Fetch.to_item results
  ∧ map url out.1 = map entry_id results
  ∧ (∀ item, item ∈ out.1 →
       ai_for_hw item = None ∧ tags item = None
       ∧ contains Fetch.newline (abstract_ item) = false)
  ∧ last out.2
    = Some match e with
           | Fetch.Exhausted =>
               match results with
               | [] => Fetch.NoResults
               | _ => Fetch.Finished (length results)
               end
           | Fetch.EmptyPage => Fetch.HitEmptyPage (length results)
           | Fetch.ClientError => Fetch.ErrorSkipped
           end.
Proof.
  intros out. subst out. unfold Fetch.fetch_papers.
  destruct (fetch_loop_spec results 0) as (messages & ->). cbn [fst snd Nat.add].
  split; [done|]. split; [|split].
  - rewrite map_map. done.
  - intros item (result & -> & _)%list_elem_of_fmap.
    split; [done|]. split; [done|]. apply replace_newline_free.
  - rewrite last_app. by destruct e, results.
Qed.

(** ** Dates as strings *)

Lemma compare_app_same_length a :
  ∀ b s t, String.length a = String.length b →
    String.compare (a +:+ s) (b +:+ t)
    = lex (String.compare a b) (String.compare s t).
Proof.
  induction a as [|x a IH]; intros [|y b] s t Hlen; try done.
  rewrite !append_cons. cbn [String.compare].
  destruct (Ascii.compare x y); [|done..].
  apply IH. by injection Hlen.
Qed.

Lemma two_digits_compare_table :
  forallb (λ m, forallb (λ n,
    match String.compare (Fetch.two_digits m) (Fetch.two_digits n),
          Nat.compare m n with
    | Eq, Eq | Lt, Lt | Gt, Gt => true
    | _, _ => false
    end) (seq 0 100)) (seq 0 100) = true.
Proof. by vm_compute. Qed.

Lemma two_digits_compare m n :
  m < 100 → n < 100 →
  String.compare (Fetch.two_digits m) (Fetch.two_digits n) = Nat.compare m n.
Proof.
  intros Hm Hn. pose proof two_digits_compare_table as Htable.
  rewrite forallb_forall in Htable.
  specialize (Htable m (proj2 (in_seq _ _ _) (conj (Nat.le_0_l m) Hm))).
  rewrite forallb_forall in Htable.
  specialize (Htable n (proj2 (in_seq _ _ _) (conj (Nat.le_0_l n) Hn))).
  by destruct (String.compare _ _), (Nat.compare m n).
Qed.

Lemma mod_100_split y : y mod 100 = y mod 10 + 10 * ((y / 10) mod 10).
Proof. exact (Nat.Div0.mod_mul_r y 10 10). Qed.

Lemma mod_100_tens y : y mod 100 / 10 = (y / 10) mod 10.
Proof.
  rewrite mod_100_split. symmetry. apply (Nat.div_unique _ 10 _ (y mod 10)).
  - apply Nat.mod_upper_bound. lia.
  - lia.
Qed.

Lemma mod_100_units y : (y mod 100) mod 10 = y mod 10.
Proof.
  rewrite mod_100_split. symmetry.
  apply (Nat.mod_unique _ 10 ((y / 10) mod 10)).
  - apply Nat.mod_upper_bound. lia.
  - lia.
Qed.

Lemma four_digits_split y :
  Fetch.four_digits y
  = Fetch.two_digits (y / 100) +:+ Fetch.two_digits (y mod 100).
Proof.
  unfold Fetch.four_digits, Fetch.two_digits, Fetch.digit.
  rewrite !append_cons. change (EmptyString +:+ ?r) with r.
  rewrite (Nat.Div0.div_div y 100 10 : y / 100 / 10 = y / 1000).
  rewrite mod_100_tens, mod_100_units, Nat.Div0.mod_mod. done.
Qed.

Lemma lex_nat_compare a b a' b' k :
  b < k → b' < k →
  lex (Nat.compare a a') (Nat.compare b b') = Nat.compare (a * k + b) (a' * k + b').
Proof.
  intros Hb Hb'. symmetry.
  destruct (Nat.compare_spec a a') as [->|Hlt|Hgt]; simpl.
  - destruct (Nat.compare_spec b b') as [->|Hlt|Hgt].
    + apply Nat.compare_eq_iff. done.
    + apply Nat.compare_lt_iff. lia.
    + apply Nat.compare_gt_iff. lia.
  - apply Nat.compare_lt_iff. nia.
  - apply Nat.compare_gt_iff. nia.
Qed.

Lemma four_digits_compare x y :
  x < 100 * 100 → y < 100 * 100 →
  String.compare (Fetch.four_digits x) (Fetch.four_digits y) = Nat.compare x y.
Proof.
  intros Hx Hy. rewrite !four_digits_split, compare_app_same_length by done.
  assert (x / 100 < 100) by (apply Nat.Div0.div_lt_upper_bound; lia).
  assert (y / 100 < 100) by (apply Nat.Div0.div_lt_upper_bound; lia).
  assert (x mod 100 < 100) by (apply Nat.mod_upper_bound; lia).
  assert (y mod 100 < 100) by (apply Nat.mod_upper_bound; lia).
  rewrite !two_digits_compare by done.
  rewrite (lex_nat_compare _ _ _ _ 100) by done.
  pose proof (Nat.div_mod_eq x 100). pose proof (Nat.div_mod_eq y 100).
  f_equal; lia.
Qed.

Lemma strftime_compare a b :
  valid_datetime a → valid_datetime b →
  String.compare (Fetch.strftime a) (Fetch.strftime b)
  = Nat.compare (timestamp a) (timestamp b).
Proof.
  intros (Hy & Hm & Hd & Hh & Hmi & Hs) (Hy' & Hm' & Hd' & Hh' & Hmi' & Hs').
  unfold Fetch.strftime.
  repeat (rewrite compare_app_same_length by done;
          rewrite ?four_digits_compare, ?two_digits_compare by lia).
  change (String.compare "-" "-") with Eq.
  change (String.compare "T" "T") with Eq.
  change (String.compare ":" ":") with Eq.
  change (String.compare "Z" "Z") with Eq.
  cbn [lex]. unfold timestamp.
  assert (∀ c, lex c Eq = c) as Hlex by (by intros []). rewrite Hlex.
  assert (∀ c1 c2 c3, lex c1 (lex c2 c3) = lex (lex c1 c2) c3) as Hassoc
    by (by intros []).
  rewrite !Hassoc. by rewrite !(lex_nat_compare _ _ _ _ 100) by lia.
Qed.

(** X21. The dates the harvester writes compare as strings the way they
    compare as dates: for two dates with their fields in range (years of
    four digits), the order of the two strings is the order of the
    dates taken field by field from the year to the second.  So the sort
    on [published] puts the later of two fetched papers first. *)
Theorem published_strings_order_as_dates (ra rb : arxiv_result) :
  valid_datetime (result_published ra) →
  valid_datetime (result_published rb) →
  String.compare (Fetch.strftime (result_published ra))
    (Fetch.strftime (result_published rb))
  = Nat.compare (timestamp (result_published ra)) (timestamp (result_published rb))
  ∧ (published_ge (Fetch.to_item ra) (Fetch.to_item rb) = true
     ↔ (timestamp (result_published rb) ≤ timestamp (result_published ra))%nat)
  ∧ ((timestamp (result_published rb) < timestamp (result_published ra))%nat →
     sort_published [Fetch.to_item rb; Fetch.to_item ra]
     = [Fetch.to_item ra; Fetch.to_item rb]).
Proof.
  intros Ha Hb.
  pose proof (strftime_compare _ _ Hb Ha) as Hba.
  assert (published_ge (Fetch.to_item ra) (Fetch.to_item rb) = true
          ↔ (timestamp (result_published rb) ≤ timestamp (result_published ra))%nat)
    as Hge.
  { unfold published_ge, String.leb. cbn [published Fetch.to_item]. rewrite Hba.
    destruct (Nat.compare_spec (timestamp (result_published rb))
                (timestamp (result_published ra))); split; (done || lia). }
  split; [by apply strftime_compare|]. split; [exact Hge|].
  intros Hlt. cbn [sort_published foldr insert_desc].
  assert (published_ge (Fetch.to_item rb) (Fetch.to_item ra) = false) as ->; [|done].
  unfold published_ge, String.leb. cbn [published Fetch.to_item].
  rewrite (strftime_compare _ _ Ha Hb).
  by apply Nat.compare_gt_iff in Hlt as ->.
Qed.

Lemma published_strings_order_as_dates_witness :
  let ra := mkResult "A" "a" "" (mkDatetime 2024 3 1 0 0 0) in
  let rb := mkResult "B" "b" "" (mkDatetime 2023 12 31 23 59 59) in
  valid_datetime (result_published ra)
  ∧ valid_datetime (result_published rb)
  ∧ sort_published [Fetch.to_item rb; Fetch.to_item ra]
    = [Fetch.to_item ra; Fetch.to_item rb].
Proof.
  intros ra rb.
  assert (valid_datetime (result_published ra)) as Ha.
  { unfold valid_datetime. simpl. lia. }
  assert (valid_datetime (result_published rb)) as Hb.
  { unfold valid_datetime. simpl. lia. }
  split; [exact Ha|]. split; [exact Hb|].
  refine (proj2 (proj2 (published_strings_order_as_dates ra rb Ha Hb)) _).
  unfold timestamp, ra, rb.
  cbn [result_published year month day hour minute second]. lia.
Defined.

(** ** The progress counter of the classifier *)

Lemma classify_process_wrapper_tick overwrite total call st r :
  ∃ st0 evs,
    Classify.process_wrapper overwrite total call st r
    = Ok (Classify.tick total st0 evs)
    ∧ Classify.processed_count st0 = Classify.processed_count st.
Proof.
  unfold Classify.process_wrapper.
  destruct (Classify.objs st !! r) as [item|]; [|by eexists _, _].
  destruct (Classify.classify_item call item overwrite) as [[[item' label]|e] evs];
    by eexists _, _.
Qed.

Lemma tick_count total st evs :
  Classify.processed_count (Classify.tick total st evs)
  = S (Classify.processed_count st).
Proof. done. Qed.

Lemma tick_last total st evs :
  S (Classify.processed_count st) = total →
  last (Classify.log (Classify.tick total st evs)) = Some (Progress total total).
Proof.
  intros <-. unfold Classify.tick. cbn [Classify.log].
  rewrite Nat.eqb_refl, orb_true_r, !app_assoc. apply last_snoc.
Qed.

Lemma classify_executor_map_progress overwrite total oracle items :
  ∀ i st,
    items ≠ [] →
    Classify.processed_count st + length items = total →
    ∃ st', Classify.executor_map overwrite total oracle i items st = Ok st'
           ∧ Classify.processed_count st' = total
           ∧ last (Classify.log st') = Some (Progress total total).
Proof.
  induction items as [|r items IH]; intros i st Hne Hcount; [done|].
  destruct (classify_process_wrapper_tick overwrite total (oracle i) st r)
    as (st0 & evs & Hstep & Hsame).
  cbn [Classify.executor_map]. rewrite Hstep.
  destruct items as [|r' items'].
  - eexists. split; [done|]. simpl in Hcount. split.
    + rewrite tick_count, Hsame. lia.
    + apply tick_last. rewrite Hsame. lia.
  - apply IH; [done|]. rewrite tick_count, Hsame. simpl in *. lia.
Qed.

(** X22. In a batch of the classifier that is not empty the counter
    counts every record once, the failed ones too: at the end it equals
    the number of records of the batch, and the last line printed is the
    progress line [n/n]. *)
Theorem classifier_progress_reaches_total (data : list paper)
  (labeled_data : option (list paper)) (overwrite : bool)
  (oracle : nat → nat → reply) :
  let items := Classify.items_to_process data labeled_data overwrite in
  items ≠ [] →
  ∃ st,
    Classify.executor_map overwrite (length items) oracle 0 items
      (Classify.initial data labeled_data) = Ok st
    ∧ Classify.processed_count st = length items
    ∧ last (Classify.log st) = Some (Progress (length items) (length items)).
Proof.
  intros items Hne.
  by apply classify_executor_map_progress.
Qed.

Lemma classifier_progress_reaches_total_witness :
  let X := sample "X" "2024-01-01T00:00:00Z" in
  let Y := sample "Y" "2024-02-01T00:00:00Z" in
  Classify.items_to_process [X; Y] None false ≠ []
  ∧ ∃ st,
      Classify.executor_map false 2 (λ _ _, ApiError) 0 [0; 1]
        (Classify.initial [X; Y] None) = Ok st
      ∧ Classify.processed_count st = 2
      ∧ last (Classify.log st) = Some (Progress 2 2).
Proof.
  intros X Y.
  assert (Classify.items_to_process [X; Y] None false ≠ []) as Hne by done.
  split; [exact Hne|].
  exact (classifier_progress_reaches_total [X; Y] None false (λ _ _, ApiError) Hne).
Defined.

(** ** What an incremental merge keeps *)

(** X23. An incremental merge never changes what is stored: every
    persisted record is in the result, a record of the result whose url
    is a persisted url is a persisted record (a paper harvested again
    keeps its stored version, labels and tags included), and the result
    has as many records as the persisted list plus the new ones. *)
Theorem incremental_merge_keeps_stored_records (H P : list paper) :
  let merged := (Harvest.merge H P (Harvest.urls_of P)).1 in
  let k := (Harvest.merge H P (Harvest.urls_of P)).2 in
  (∀ p, p ∈ P → p ∈ merged)
  ∧ (∀ r, r ∈ merged → url r ∈ Harvest.urls_of P → r ∈ P)
  ∧ length merged = k + length P
  ∧ Harvest.urls_of merged = Harvest.urls_of H ∪ Harvest.urls_of P.
Proof.
  intros merged k. subst merged k. rewrite merge_spec. cbn [fst snd].
  split; [|split; [|split]].
  - intros p Hp. apply elem_of_app. by right.
  - intros r [Hr|Hr]%elem_of_app Hurl; [|done].
    unfold new_records in Hr. apply list_elem_of_In, filter_In in Hr as [_ Hr].
    by apply bool_decide_eq_true in Hr.
  - by rewrite length_app.
  - unfold Harvest.urls_of, new_records. apply set_eq. intros u.
    rewrite map_app, list_to_set_app, !elem_of_union, !elem_of_list_to_set,
      !list_elem_of_fmap.
    split.
    + intros [(r & -> & Hr)|HP]; [left|by right].
      exists r. split; [done|].
      apply list_elem_of_In, filter_In in Hr as [Hr _]. by apply list_elem_of_In.
    + intros [(r & -> & Hr)|HP]; [|by right].
      destruct (decide (url r ∈ Harvest.urls_of P)) as [Hin|Hout].
      * right. unfold Harvest.urls_of in Hin.
        by apply elem_of_list_to_set, list_elem_of_fmap in Hin.
      * left. exists r. split; [done|]. apply list_elem_of_In, filter_In.
        split; [by apply list_elem_of_In|]. by apply bool_decide_eq_true.
Qed.

(** ** Records with the empty url *)

Lemma select_member keep data :
  ∀ base i item, data !! i = Some item → keep item = true →
    (base + i) ∈ Classify.select keep base data.
Proof.
  induction data as [|x data IH]; intros base i item Hi Hkeep; [done|].
  destruct i as [|i]; simpl in Hi.
  - injection Hi as ->. simpl. rewrite Hkeep, Nat.add_0_r. by left.
  - simpl. replace (base + S i) with (S base + i) by lia.
    destruct (keep x); [right|]; by eapply IH.
Qed.

(** X24. A record with the empty url is never taken for done: the
    classifier in diff mode and the tagger send it to the model on every
    run, whatever the baseline or the output file holds, since the empty
    url is left out of the url sets they compare with. *)
Theorem empty_url_is_always_processed (data labeled all_papers : list paper)
  (existing_output : option (list paper)) (overwrite : bool)
  (i : nat) (item : paper) :
  url item = "" →
  (data !! i = Some item →
   i ∈ Classify.items_to_process data (Some labeled) overwrite)
  ∧ (item ∈ all_papers → item ∈ tag_todo all_papers existing_output overwrite).
Proof.
  intros Hurl.
  assert (∀ l, url item ∉ Classify.nonempty_urls l) as Hout.
  { intros l Hin. apply nonempty_urls_elem in Hin as [Hne _]. by apply Hne. }
  split.
  - intros Hi. unfold Classify.items_to_process.
    apply (select_member _ data 0 i item Hi). by apply bool_decide_eq_true.
  - intros Hin. unfold tag_todo. destruct overwrite; [done|].
    apply list_elem_of_In, filter_In. split; [by apply list_elem_of_In|].
    apply bool_decide_eq_true, Hout.
Qed.

Lemma empty_url_is_always_processed_witness :
  let E := sample "" "2024-01-01T00:00:00Z" in
  url E = ""
  ∧ ([E] !! 0 = Some E → 0 ∈ Classify.items_to_process [E] (Some [E]) false)
  ∧ (E ∈ [E] → E ∈ tag_todo [E] (Some [set_tags E ["Other"]]) false).
Proof.
  intros E.
  assert (url E = "") as Hurl by reflexivity.
  split; [exact Hurl|].
  exact (empty_url_is_always_processed [E] [E] [E] (Some [set_tags E ["Other"]])
           false 0 E Hurl).
Defined.
